(** * A relay for two-player Connect Four over WebSockets (app.py)

    The server keeps two module-level dictionaries, [JOIN] and [WATCH], from
    secret tokens to a pair (game, connected) of shared objects.  Every
    connection runs the coroutine [handler]; coroutines are scheduled
    cooperatively, so the code between two [await]s runs atomically.

    The embedding is a labelled transition system: a state holds the two
    dictionaries, the heap of shared (game, connected) objects and, per
    connection, the point where its coroutine is suspended, whether the
    transport is still open, and the events written to it so far.  One
    transition resumes one coroutine and runs it to its next suspension. *)

From stdpp Require Import base gmap sets list strings vector.
From Stdlib Require Import ZArith NArith Lia Permutation Ascii.
From Stdlib.Strings Require Import Byte.

#[local] Set Warnings "-clear-no-such-hyp".

(** ** Data *)

Inductive player := PLAYER1 | PLAYER2.

Global Instance player_eq_dec : EqDecision player.
Proof. solve_decision. Defined.

(** An entry of [game.moves]: (player, column, row). *)
Abbreviation move := (player * Z * Z)%type (only parsing).

(** The dictionaries sent with [websocket.send(json.dumps(event))] or
    [websockets.broadcast]. *)
Inductive event :=
| InitEvent (join watch : string)
| PlayEvent (p : player) (column row : Z)
| WinEvent (p : player)
| ErrorEvent (message : string).

Global Instance event_eq_dec : EqDecision event.
Proof. solve_decision. Defined.

(** What [json.loads(message)] gives for an incoming frame.  [Malformed]
    stands for a frame on which [json.loads] raises or whose value is not an
    object.  For an object, the four keys the server reads are kept: a key is
    [None] when absent ([event["k"]] raises KeyError, ["k" in event] is
    False).  The values of "join" and "watch" are taken as strings and the
    value of "column" as an integer, as the protocol has them. *)
Inductive message :=
| Malformed
| Json (type : option string) (join watch : option string) (column : option Z).

(** ** The rules engine (connect4.Connect4)

    The module [connect4] is imported by app.py and is not part of the code
    under study.  app.py uses the constructor [Connect4()], the attributes
    [moves] and [winner], and the method [play], which returns the row or
    raises.  Only [RuntimeError] is caught by app.py; any other exception
    ([OtherError]) propagates. *)
Inductive outcome :=
| Row (row : Z)
| RuntimeError (exc : string)
| OtherError.

Definition is_row (o : outcome) : bool :=
  match o with Row _ => true | _ => false end.

(** Modelled from the spec: the contract of the rules engine, whose code
    (connect4.py) is missing.  A successful [play] appends
    (player, column, row) to the move log; a failing one leaves the move log
    as it was; a new game has an empty log. *)
Class RulesEngine := {
  game : Type;
  Connect4 : game;
  moves : game -> list move;
  winner : game -> option player;
  game_play : game -> player -> Z -> outcome * game;
  Connect4_moves : moves Connect4 = [];
  game_play_row : forall g p column row g',
    game_play g p column = (Row row, g') ->
    moves g' = moves g ++ [(p, column, row)];
  game_play_raise : forall g p column o g',
    game_play g p column = (o, g') -> is_row o = false ->
    moves g' = moves g
}.

(** ** secrets.token_urlsafe

    [token_urlsafe(nbytes)] is
    [base64.urlsafe_b64encode(token_bytes(nbytes)).rstrip(b'=').decode('ascii')]
    in the Python standard library. *)
Module Secrets.

Definition alphabet : list ascii :=
  String.list_ascii_of_string
    "ABCDEFGHIJKLMNOPQRSTUVWXYZabcdefghijklmnopqrstuvwxyz0123456789-_"%string.

Definition b64char (n : N) : ascii := nth (N.to_nat n) alphabet "="%char.

Definition group3 (a b c : N) : list ascii :=
  [ b64char (a / 4);
    b64char ((a mod 4) * 16 + b / 16);
    b64char ((b mod 16) * 4 + c / 64);
    b64char (c mod 64) ].

Fixpoint urlsafe_b64encode (bs : list byte) : list ascii :=
  match bs with
  | a :: b :: c :: rest =>
      group3 (Byte.to_N a) (Byte.to_N b) (Byte.to_N c) ++ urlsafe_b64encode rest
  | [a; b] =>
      [ b64char (Byte.to_N a / 4);
        b64char ((Byte.to_N a mod 4) * 16 + Byte.to_N b / 16);
        b64char ((Byte.to_N b mod 16) * 4);
        "="%char ]
  | [a] =>
      [ b64char (Byte.to_N a / 4);
        b64char ((Byte.to_N a mod 4) * 16);
        "="%char; "="%char ]
  | [] => []
  end.

(** [bytes.rstrip(b'=')], on the reversed list and back. *)
Fixpoint lstrip_eq (l : list ascii) : list ascii :=
  match l with
  | c :: l' => if Ascii.eqb c "="%char then lstrip_eq l' else l
  | [] => []
  end.

Definition rstrip_eq (l : list ascii) : list ascii := rev (lstrip_eq (rev l)).

(** [tok] is the result of [token_bytes(nbytes)]. *)
Definition token_urlsafe (tok : list byte) : string :=
  String.string_of_list_ascii (rstrip_eq (urlsafe_b64encode tok)).

End Secrets.

(** ** Suspension points of a connection's coroutine *)

(** The enclosing [try ... finally] of the function the handler dispatched
    to: [start] (whose finally-clause deletes [JOIN[join_key]]), [join] or
    [watch] (whose finally-clause removes the websocket from [connected]). *)
Inductive frame :=
| Start (join_key : string)
| Join
| Watch.

(** Where a coroutine is suspended.  [sid] is the heap address of the
    (game, connected) pair held in the local variables. *)
Inductive pc :=
| AwaitInit                                      (* line 164: websocket.recv() *)
| ErrorNotFound                                  (* lines 122, 145: send inside error() *)
| SendInit (sid : nat) (join_key : string)       (* line 111: send of the init event *)
| Replay (fr : frame) (sid : nat) (rest : list move) (* line 45: send inside replay() *)
| PlayRecv (fr : frame) (sid : nat)              (* line 52: async for message in websocket *)
| PlayError (fr : frame) (sid : nat)             (* line 64: send inside error() *)
| WaitClosed (sid : nat)                         (* line 154: websocket.wait_closed() *)
| Done (raised : bool).                          (* the handler returned or raised *)

(** What the pending [await] yields when the coroutine is resumed. *)
Inductive input :=
| Recv (m : message)     (* a frame is delivered *)
| Drained                (* the pending send completes *)
| Closed (ok : bool)     (* the closed transport is observed: ConnectionClosedOK / Error *)
| Cancel.                (* CancelledError is thrown into the coroutine *)

Record Connection := {
  c_pc : pc;
  c_open : bool;
  c_sent : list event
}.

(** ** Notions the properties are stated with *)

(** The play events among the events written to a connection, as moves. *)
Definition plays (sent : list event) : list move :=
  omap (fun e => match e with
                 | PlayEvent p column row => Some (p, column, row)
                 | _ => None
                 end) sent.

Definition play_events (ms : list move) : list event :=
  map (fun m : move => PlayEvent m.1.1 m.1.2 m.2) ms.

(** The frame and the (game, connected) pair a suspended coroutine holds. *)
Definition pc_frame (p : pc) : option (frame * nat) :=
  match p with
  | SendInit sid join_key => Some (Start join_key, sid)
  | Replay fr sid _ | PlayRecv fr sid | PlayError fr sid => Some (fr, sid)
  | WaitClosed sid => Some (Watch, sid)
  | AwaitInit | ErrorNotFound | Done _ => None
  end.

Definition pc_session (p : pc) : option nat := snd <$> pc_frame p.

Definition is_start (fr : frame) : bool :=
  match fr with Start _ => true | _ => false end.

(** The coroutine is the first player's. *)
Definition first_player (p : pc) : bool :=
  match pc_frame p with
  | Some (fr, _) => is_start fr
  | None => false
  end.

(** The part of the snapshot [replay] has still to send. *)
Definition pending (p : pc) : list move :=
  match p with
  | Replay _ _ rest => rest
  | _ => []
  end.

(** [replay] is never entered from [start]. *)
Definition pc_wf (p : pc) : Prop :=
  match p with
  | Replay (Start _) _ _ => False
  | _ => True
  end.

(** [Merge l1 l2 l]: [l] interleaves [l1] and [l2], keeping the order of
    each. *)
Inductive Merge {A : Type} : list A -> list A -> list A -> Prop :=
| Merge_nil : Merge [] [] []
| Merge_left x l1 l2 l : Merge l1 l2 l -> Merge (x :: l1) l2 (x :: l)
| Merge_right x l1 l2 l : Merge l1 l2 l -> Merge l1 (x :: l2) (x :: l).

(** What a connection attached to a game with move log [log] has been sent:
    an interleaving of the replayed part of its snapshot with the moves
    broadcast since it attached. *)
Definition delivered (p : pc) (sent : list event) (log : list move) : Prop :=
  exists replayed live : list move,
    log = replayed ++ pending p ++ live /\
    Merge replayed live (plays sent) /\
    (first_player p = true -> replayed = []).

(** The events [play] broadcasts; the others are sent to one connection. *)
Definition broadcastable (e : event) : bool :=
  match e with
  | PlayEvent _ _ _ | WinEvent _ => true
  | InitEvent _ _ | ErrorEvent _ => false
  end.

(** Every win event comes directly after a play event of the same player. *)
Definition wins_follow_plays (sent : list event) : Prop :=
  forall i p, sent !! i = Some (WinEvent p) ->
    exists j column row, i = S j /\ sent !! j = Some (PlayEvent p column row).

(** How a connection changes in a transition: events are added at the end
    of what it was sent, none once it is closed, and it does not reopen.
    When the transition is another coroutine's ([own = false]) the events
    are broadcast ones and its suspension point and transport are as they
    were. *)
Definition grows (own : bool) (c c' : Connection) : Prop :=
  exists evs,
    c_sent c' = c_sent c ++ evs /\
    (c_open c = false -> evs = [] /\ c_open c' = false) /\
    (own = false ->
       c_pc c' = c_pc c /\ c_open c' = c_open c /\ forallb broadcastable evs = true) /\
    (wins_follow_plays (c_sent c) -> wins_follow_plays (c_sent c')).

(** A message that breaks the protocol at the opening, or inside a game. *)
Definition bad_init (m : message) : Prop :=
  match m with
  | Malformed => True
  | Json type _ _ _ => type <> Some "init"%string
  end.

Definition bad_play (m : message) : Prop :=
  match m with
  | Malformed => True
  | Json type _ _ column => type <> Some "play"%string \/ column = None
  end.

(** The opening messages of the three kinds of client, and a move. *)
Definition init_start : message := Json (Some "init"%string) None None None.
Definition init_join (key : string) : message := Json (Some "init"%string) (Some key) None None.
Definition init_watch (key : string) : message := Json (Some "init"%string) None (Some key) None.
Definition play_column (column : Z) : message := Json (Some "play"%string) None None (Some column).

Section Server.
Context `{Engine : RulesEngine}.

(** The pair [game, connected] stored in [JOIN] and [WATCH]; both
    dictionaries hold references to the same two objects. *)
Record Session := {
  s_game : game;
  s_connected : gset nat
}.

Record state := {
  JOIN : gmap string nat;
  WATCH : gmap string nat;
  heap : list Session;
  conns : gmap nat Connection;
  urandom : nat -> vec byte 12;   (* the operating system's entropy source *)
  drawn : nat                     (* calls to token_bytes so far *)
}.

Definition with_conns (f : gmap nat Connection -> gmap nat Connection) (st : state) : state :=
  {| JOIN := JOIN st; WATCH := WATCH st; heap := heap st;
     conns := f (conns st); urandom := urandom st; drawn := drawn st |}.

Definition with_heap (f : list Session -> list Session) (st : state) : state :=
  {| JOIN := JOIN st; WATCH := WATCH st; heap := f (heap st);
     conns := conns st; urandom := urandom st; drawn := drawn st |}.

Definition with_JOIN (f : gmap string nat -> gmap string nat) (st : state) : state :=
  {| JOIN := f (JOIN st); WATCH := WATCH st; heap := heap st;
     conns := conns st; urandom := urandom st; drawn := drawn st |}.

Definition with_WATCH (f : gmap string nat -> gmap string nat) (st : state) : state :=
  {| JOIN := JOIN st; WATCH := f (WATCH st); heap := heap st;
     conns := conns st; urandom := urandom st; drawn := drawn st |}.

(** [secrets.token_urlsafe(12)] *)
Definition token_urlsafe12 (st : state) : string * state :=
  (Secrets.token_urlsafe (vec_to_list (urandom st (drawn st))),
   {| JOIN := JOIN st; WATCH := WATCH st; heap := heap st;
      conns := conns st; urandom := urandom st; drawn := S (drawn st) |}).

(** *** Primitive effects on a connection *)

Definition set_pc (ws : nat) (p : pc) : state -> state :=
  with_conns (alter (fun c => {| c_pc := p; c_open := c_open c; c_sent := c_sent c |}) ws).

Definition is_open (st : state) (ws : nat) : bool :=
  match conns st !! ws with
  | Some c => c_open c
  | None => false
  end.

Definition deliver (e : event) (c : Connection) : Connection :=
  {| c_pc := c_pc c; c_open := c_open c; c_sent := c_sent c ++ [e] |}.

(** [await websocket.send(json.dumps(e))]: the frame is written at once when
    the connection is open; [None] stands for ConnectionClosed being raised. *)
Definition send (ws : nat) (e : event) (st : state) : option state :=
  if is_open st ws then Some (with_conns (alter (deliver e) ws) st) else None.

(** error (lines 16-25) *)
Definition error (ws : nat) (message : string) (st : state) : option state :=
  send ws (ErrorEvent message) st.

(** [websockets.broadcast(connected, json.dumps(e))]: written to every member
    of the set whose connection is open; the others are skipped. *)
Definition broadcast (connected : gset nat) (e : event) : state -> state :=
  with_conns (map_imap (fun ws c =>
    Some (if c_open c && bool_decide (ws ∈ connected) then deliver e c else c))).

(** The handler has returned ([raised = false]) or raised; the server then
    closes the connection. *)
Definition finish (ws : nat) (raised : bool) : state -> state :=
  with_conns (alter (fun c => {| c_pc := Done raised; c_open := false; c_sent := c_sent c |}) ws).

(** *** Shared objects *)

Definition connected_add (sid ws : nat) : state -> state :=
  with_heap (alter (fun s => {| s_game := s_game s; s_connected := {[ws]} ∪ s_connected s |}) sid).

Definition connected_remove (sid ws : nat) : state -> state :=
  with_heap (alter (fun s => {| s_game := s_game s; s_connected := s_connected s ∖ {[ws]} |}) sid).

Definition set_game (sid : nat) (g : game) : state -> state :=
  with_heap (alter (fun s => {| s_game := g; s_connected := s_connected s |}) sid).

(** *** The finally-clauses (lines 114-115, 133-134, 155-156) *)

Definition finally (fr : frame) (sid ws : nat) : state -> state :=
  match fr with
  | Start join_key => with_JOIN (delete join_key)
  | Join | Watch => connected_remove sid ws
  end.

(** [del JOIN[join_key]] and [connected.remove(websocket)] raise KeyError
    when the key or the member is not there. *)
Definition finally_raises (fr : frame) (sid ws : nat) (st : state) : bool :=
  match fr with
  | Start join_key => bool_decide (JOIN st !! join_key = None)
  | Join | Watch =>
      match heap st !! sid with
      | Some s => bool_decide (ws ∉ s_connected s)
      | None => false
      end
  end.

(** Leave the frame: run its finally-clause, then the handler is over; it
    has raised when it was leaving on an exception or the finally-clause
    raises. *)
Definition leave (fr : frame) (sid ws : nat) (raised : bool) (st : state) : state :=
  finish ws (raised || finally_raises fr sid ws st) (finally fr sid ws st).

(** The player argument [play] is called with (lines 113, 132). *)
Definition seat (fr : frame) : player :=
  match fr with
  | Start _ => PLAYER1
  | _ => PLAYER2
  end.

(** *** replay (lines 27-45) and what follows it in join and watch *)

Definition after_replay (fr : frame) (sid ws : nat) (st : state) : state :=
  match fr with
  | Watch =>
      (* await websocket.wait_closed() *)
      if is_open st ws then set_pc ws (WaitClosed sid) st
      else leave Watch sid ws false st
  | _ =>
      (* await play(websocket, game, PLAYER2, connected) *)
      set_pc ws (PlayRecv fr sid) st
  end.

(** One iteration of the loop over the copy of [game.moves]; [rest] is what
    is left of the copy. *)
Definition replay (fr : frame) (sid ws : nat) (rest : list move) (st : state) : state :=
  match rest with
  | (p, column, row) :: rest' =>
      match send ws (PlayEvent p column row) st with
      | Some st' => set_pc ws (Replay fr sid rest') st'
      | None => leave fr sid ws true st
      end
  | [] => after_replay fr sid ws st
  end.

(** *** play (lines 47-82): the body of the loop for one message *)

Definition play (fr : frame) (sid ws : nat) (m : message) (st : state) : option state :=
  match m with
  | Json type _ _ (Some column) =>
      if decide (type = Some "play"%string) then
        s ← heap st !! sid;
        let '(o, g') := game_play (s_game s) (seat fr) column in
        let st := set_game sid g' st in
        Some
          match o with
          | Row row =>
              let st := broadcast (s_connected s) (PlayEvent (seat fr) column row) st in
              match winner g' with
              | Some _ => broadcast (s_connected s) (WinEvent (seat fr)) st
              | None => st
              end
          | RuntimeError exc =>
              match error ws exc st with
              | Some st' => set_pc ws (PlayError fr sid) st'
              | None => leave fr sid ws true st
              end
          | OtherError => leave fr sid ws true st
          end
      else Some (leave fr sid ws true st)
  | _ => Some (leave fr sid ws true st)
  end.

(** *** start (lines 84-115) *)

Definition start (ws : nat) (st : state) : state :=
  let sid := length (heap st) in
  let st := with_heap (fun h => h ++ [{| s_game := Connect4; s_connected := {[ws]} |}]) st in
  let '(join_key, st) := token_urlsafe12 st in
  let st := with_JOIN (insert join_key sid) st in
  let '(watch_key, st) := token_urlsafe12 st in
  let st := with_WATCH (insert watch_key sid) st in
  match send ws (InitEvent join_key watch_key) st with
  | Some st' => set_pc ws (SendInit sid join_key) st'
  | None => leave (Start join_key) sid ws true st
  end.

(** *** join (lines 117-134) and watch (lines 136-156) *)

Definition not_found (ws : nat) (st : state) : state :=
  match error ws "Game not found." st with
  | Some st' => set_pc ws ErrorNotFound st'
  | None => finish ws true st
  end.

Definition attach (fr : frame) (sid ws : nat) (st : state) : option state :=
  s ← heap st !! sid;
  Some (replay fr sid ws (moves (s_game s)) (connected_add sid ws st)).

Definition join (ws : nat) (join_key : string) (st : state) : option state :=
  match JOIN st !! join_key with
  | None => Some (not_found ws st)
  | Some sid => attach Join sid ws st
  end.

Definition watch (ws : nat) (watch_key : string) (st : state) : option state :=
  match WATCH st !! watch_key with
  | None => Some (not_found ws st)
  | Some sid => attach Watch sid ws st
  end.

(** *** handler (lines 158-177), after [websocket.recv()] has returned *)

Definition handler (ws : nat) (m : message) (st : state) : option state :=
  match m with
  | Json type j w _ =>
      if decide (type = Some "init"%string) then
        match j, w with
        | Some join_key, _ => join ws join_key st
        | None, Some watch_key => watch ws watch_key st
        | None, None => Some (start ws st)
        end
      else Some (finish ws true st)
  | Malformed => Some (finish ws true st)
  end.

(** ** Transitions *)

(** Resume the coroutine of [ws] with what its pending await yields.
    [None]: the input cannot occur at this suspension point. *)
Definition resume (ws : nat) (i : input) (st : state) : option state :=
  c ← conns st !! ws;
  match c_pc c, i with
  | AwaitInit, Recv m => handler ws m st
  | AwaitInit, Closed _ => if c_open c then None else Some (finish ws true st)
  | AwaitInit, Cancel => Some (finish ws true st)
  | ErrorNotFound, Drained => Some (finish ws false st)
  | ErrorNotFound, Closed _ => if c_open c then None else Some (finish ws true st)
  | ErrorNotFound, Cancel => Some (finish ws true st)
  | SendInit sid join_key, Drained => Some (set_pc ws (PlayRecv (Start join_key) sid) st)
  | SendInit sid join_key, Closed _ =>
      if c_open c then None else Some (leave (Start join_key) sid ws true st)
  | SendInit sid join_key, Cancel => Some (leave (Start join_key) sid ws true st)
  | Replay fr sid rest, Drained => Some (replay fr sid ws rest st)
  | Replay fr sid rest, Closed _ => if c_open c then None else Some (leave fr sid ws true st)
  | Replay fr sid rest, Cancel => Some (leave fr sid ws true st)
  | PlayRecv fr sid, Recv m => play fr sid ws m st
  | PlayRecv fr sid, Closed ok =>
      (* the loop ends on ConnectionClosedOK and raises on ConnectionClosedError *)
      if c_open c then None else Some (leave fr sid ws (negb ok) st)
  | PlayRecv fr sid, Cancel => Some (leave fr sid ws true st)
  | PlayError fr sid, Drained => Some (set_pc ws (PlayRecv fr sid) st)
  | PlayError fr sid, Closed _ => if c_open c then None else Some (leave fr sid ws true st)
  | PlayError fr sid, Cancel => Some (leave fr sid ws true st)
  | WaitClosed sid, Closed _ => if c_open c then None else Some (leave Watch sid ws false st)
  | WaitClosed sid, Cancel => Some (leave Watch sid ws true st)
  | _, _ => None
  end.

(** What happens in the server process: a new connection is accepted and its
    handler started, a transport is lost, or a coroutine is resumed. *)
Inductive action :=
| Connect (ws : nat)
| Lost (ws : nat)
| Resume (ws : nat) (i : input).

Definition step (a : action) (st : state) : option state :=
  match a with
  | Connect ws =>
      match conns st !! ws with
      | None =>
          Some (with_conns (insert ws {| c_pc := AwaitInit; c_open := true; c_sent := [] |}) st)
      | Some _ => None
      end
  | Lost ws =>
      c ← conns st !! ws;
      Some (with_conns (insert ws {| c_pc := c_pc c; c_open := false; c_sent := c_sent c |}) st)
  | Resume ws i => resume ws i st
  end.

Fixpoint run (acts : list action) (st : state) : option state :=
  match acts with
  | [] => Some st
  | a :: acts' => st' ← step a st; run acts' st'
  end.

(** The server at startup: [JOIN = {}], [WATCH = {}], no connection. *)
Definition boot (rnd : nat -> vec byte 12) : state :=
  {| JOIN := ∅; WATCH := ∅; heap := []; conns := ∅; urandom := rnd; drawn := 0 |}.

Definition reachable (st : state) : Prop :=
  exists rnd acts, run acts (boot rnd) = Some st.

(** The coroutine of [ws] alone: its send completes [n] times in a row. *)
Definition drains (ws n : nat) : list action := replicate n (Resume ws Drained).

(** Where [join] and [watch] are once [replay] is over. *)
Definition live_pc (fr : frame) (sid : nat) : pc :=
  match fr with
  | Watch => WaitClosed sid
  | _ => PlayRecv fr sid
  end.

(** The connection of a coroutine that entered [replay] with the snapshot
    [snapshot] and events [sent] already written, after [k] sends. *)
Definition replaying (fr : frame) (sid : nat) (snapshot : list move) (k : nat)
    (sent : list event) : Connection :=
  {| c_pc := if bool_decide (k <= length snapshot)
             then Replay fr sid (drop k snapshot) else live_pc fr sid;
     c_open := true;
     c_sent := sent ++ play_events (take k snapshot) |}.

(** A client connects, presents the join token and is brought up to date
    with a game of [n] moves. *)
Definition joins (key : string) (n ws : nat) : list action :=
  Connect ws :: Resume ws (Recv (init_join key)) :: drains ws n.

(** The members of the connection set at heap address [sid]. *)
Definition connected (st : state) (sid : nat) : gset nat :=
  match heap st !! sid with
  | Some s => s_connected s
  | None => ∅
  end.

(** How a transition changes the heap, address by address: the move log of
    the game at [sid] goes from [l] to [k sid l] and its connection set from
    [S] to [f sid S]; no object is allocated or freed. *)
Definition heap_rel (f : nat -> gset nat -> gset nat)
    (k : nat -> list move -> list move) (h h' : list Session) : Prop :=
  forall sid,
    option_Forall2
      (fun s s' => moves (s_game s') = k sid (moves (s_game s)) /\
                   s_connected s' = f sid (s_connected s))
      (h !! sid) (h' !! sid).

Definition keep {A : Type} : nat -> A -> A := fun _ x => x.

Definition only {A : Type} (sid : nat) (g : A -> A) : nat -> A -> A :=
  fun sid' x => if decide (sid' = sid) then g x else x.

(** The events an accepted move broadcasts. *)
Definition move_events (p : player) (column row : Z) (g' : game) : list event :=
  PlayEvent p column row ::
  match winner g' with
  | Some _ => [WinEvent p]
  | None => []
  end.

(** The transitions by what they do to the shared state. *)
Inductive Effect (st : state) : action -> state -> Prop :=
| E_connect ws st' :
    conns st !! ws = None ->
    conns st' = <[ws := {| c_pc := AwaitInit; c_open := true; c_sent := [] |}]> (conns st) ->
    heap st' = heap st -> JOIN st' = JOIN st -> WATCH st' = WATCH st ->
    Effect st (Connect ws) st'
| E_lost ws c st' :
    conns st !! ws = Some c ->
    conns st' = <[ws := {| c_pc := c_pc c; c_open := false; c_sent := c_sent c |}]> (conns st) ->
    heap st' = heap st -> JOIN st' = JOIN st -> WATCH st' = WATCH st ->
    Effect st (Lost ws) st'
| E_stay ws i c c' st' :
    (* the coroutine moves on inside its frame *)
    conns st !! ws = Some c ->
    conns st' = <[ws := c']> (conns st) ->
    heap_rel keep keep (heap st) (heap st') ->
    JOIN st' = JOIN st -> WATCH st' = WATCH st ->
    c_open c' = c_open c ->
    pc_frame (c_pc c') = pc_frame (c_pc c) ->
    c_pc c' <> AwaitInit -> pc_wf (c_pc c') ->
    (forall log, delivered (c_pc c) (c_sent c) log -> delivered (c_pc c') (c_sent c') log) ->
    Effect st (Resume ws i) st'
| E_finish ws i c raised st' :
    (* the handler ends outside any try block *)
    conns st !! ws = Some c ->
    pc_frame (c_pc c) = None ->
    conns st' = <[ws := {| c_pc := Done raised; c_open := false; c_sent := c_sent c |}]> (conns st) ->
    heap st' = heap st -> JOIN st' = JOIN st -> WATCH st' = WATCH st ->
    Effect st (Resume ws i) st'
| E_leave_start ws i c raised join_key sid st' :
    (* the finally-clause of start *)
    conns st !! ws = Some c ->
    pc_frame (c_pc c) = Some (Start join_key, sid) ->
    conns st' = <[ws := {| c_pc := Done raised; c_open := false; c_sent := c_sent c |}]> (conns st) ->
    heap_rel keep keep (heap st) (heap st') ->
    JOIN st' = delete join_key (JOIN st) -> WATCH st' = WATCH st ->
    Effect st (Resume ws i) st'
| E_detach ws i c raised fr sid st' :
    (* the finally-clause of join and watch *)
    conns st !! ws = Some c ->
    pc_frame (c_pc c) = Some (fr, sid) -> is_start fr = false ->
    conns st' = <[ws := {| c_pc := Done raised; c_open := false; c_sent := c_sent c |}]> (conns st) ->
    heap_rel (only sid (fun S => S ∖ {[ws]})) keep (heap st) (heap st') ->
    JOIN st' = JOIN st -> WATCH st' = WATCH st ->
    Effect st (Resume ws i) st'
| E_accept ws i c fr sid s column row g' st' :
    (* an accepted move *)
    conns st !! ws = Some c ->
    c_pc c = PlayRecv fr sid ->
    heap st !! sid = Some s ->
    game_play (s_game s) (seat fr) column = (Row row, g') ->
    (forall w, conns st' !! w =
       (fun cw => if c_open cw && bool_decide (w ∈ s_connected s)
                  then {| c_pc := c_pc cw; c_open := c_open cw;
                          c_sent := c_sent cw ++ move_events (seat fr) column row g' |}
                  else cw) <$> conns st !! w) ->
    heap_rel keep (only sid (fun l => l ++ [(seat fr, column, row)])) (heap st) (heap st') ->
    JOIN st' = JOIN st -> WATCH st' = WATCH st ->
    Effect st (Resume ws i) st'
| E_attach ws i c fr sid s c' st' :
    (* join or watch with a registered token *)
    conns st !! ws = Some c ->
    c_pc c = AwaitInit ->
    heap st !! sid = Some s ->
    is_start fr = false ->
    conns st' = <[ws := c']> (conns st) ->
    heap_rel (only sid (fun S => {[ws]} ∪ S)) keep (heap st) (heap st') ->
    JOIN st' = JOIN st -> WATCH st' = WATCH st ->
    c_open c' = c_open c ->
    pc_frame (c_pc c') = Some (fr, sid) -> pc_wf (c_pc c') ->
    (c_sent c = [] -> delivered (c_pc c') (c_sent c') (moves (s_game s))) ->
    Effect st (Resume ws i) st'
| E_attach_closed ws i c sid st' :
    (* the same on a closed connection: added, then removed by finally *)
    conns st !! ws = Some c ->
    c_pc c = AwaitInit -> c_open c = false ->
    conns st' = <[ws := {| c_pc := Done true; c_open := false; c_sent := c_sent c |}]> (conns st)
      \/ conns st' = <[ws := {| c_pc := Done false; c_open := false; c_sent := c_sent c |}]> (conns st) ->
    heap_rel (only sid (fun S => ({[ws]} ∪ S) ∖ {[ws]})) keep (heap st) (heap st') ->
    JOIN st' = JOIN st -> WATCH st' = WATCH st ->
    Effect st (Resume ws i) st'
| E_start ws i c c' join_key watch_key st' :
    (* a new game *)
    conns st !! ws = Some c ->
    c_pc c = AwaitInit ->
    heap st' = heap st ++ [{| s_game := Connect4; s_connected := {[ws]} |}] ->
    conns st' = <[ws := c']> (conns st) ->
    WATCH st' = <[watch_key := length (heap st)]> (WATCH st) ->
    (c_open c = true /\
     c' = {| c_pc := SendInit (length (heap st)) join_key; c_open := true;
             c_sent := c_sent c ++ [InitEvent join_key watch_key] |} /\
     JOIN st' = <[join_key := length (heap st)]> (JOIN st)) \/
    (c_open c = false /\
     c' = {| c_pc := Done true; c_open := false; c_sent := c_sent c |} /\
     JOIN st' = delete join_key (<[join_key := length (heap st)]> (JOIN st))) ->
    Effect st (Resume ws i) st'.

(** No coroutine is inside [replay] called from [start]. *)
Definition wf_state (st : state) : Prop :=
  forall ws c, conns st !! ws = Some c -> pc_wf (c_pc c).

(** [ws] is in the connection set at [sid] and its coroutine is the first
    player's of that game, or is over. *)
Definition stays (ws sid : nat) (st : state) : Prop :=
  ws ∈ connected st sid /\
  exists c, conns st !! ws = Some c /\
    ((exists join_key, pc_frame (c_pc c) = Some (Start join_key, sid)) \/
     (exists raised, c_pc c = Done raised)).

(** The invariant of the reachable states. *)
Record Inv (st : state) : Prop := {
  inv_attached : forall ws c sid,
    conns st !! ws = Some c -> c_open c = true -> pc_session (c_pc c) = Some sid ->
    exists s, heap st !! sid = Some s /\ ws ∈ s_connected s /\
              delivered (c_pc c) (c_sent c) (moves (s_game s));
  inv_member : forall sid s ws,
    heap st !! sid = Some s -> ws ∈ s_connected s ->
    exists c, conns st !! ws = Some c /\
              (c_open c = true -> pc_session (c_pc c) = Some sid);
  inv_fresh : forall ws c,
    conns st !! ws = Some c -> c_pc c = AwaitInit -> c_sent c = [];
  inv_wf : forall ws c, conns st !! ws = Some c -> pc_wf (c_pc c)
}.

(** ** Notions for the properties of the whole server *)

(** Every coroutine inside [start], [join] or [watch] is in the connection
    set it holds. *)
Definition members_attached (st : state) : Prop :=
  forall ws c fr sid,
    conns st !! ws = Some c -> pc_frame (c_pc c) = Some (fr, sid) ->
    ws ∈ connected st sid.

(** The tokens of a dictionary refer to allocated pairs, and no pair has two
    tokens in it. *)
Definition registry_ok (reg : gmap string nat) (h : list Session) : Prop :=
  (forall k sid, reg !! k = Some sid -> sid < length h) /\
  (forall k1 k2 sid, reg !! k1 = Some sid -> reg !! k2 = Some sid -> k1 = k2).

(** From [st0] to [st] every connection grows, the coroutine of [w] being
    the one that runs, and no connection appears. *)
Definition writes (w : nat) (st0 st : state) : Prop :=
  (forall ws c, conns st0 !! ws = Some c ->
     exists c', conns st !! ws = Some c' /\ grows (bool_decide (ws = w)) c c') /\
  (forall ws, conns st0 !! ws = None -> conns st !! ws = None).

(** No random bytes are drawn and no game is created from [st] to [st']. *)
Definition kept (st st' : state) : Prop :=
  urandom st' = urandom st /\ drawn st' = drawn st /\
  length (heap st') = length (heap st).

(** The first [n] results of [token_bytes] are pairwise different. *)
Definition distinct_draws (rnd : nat -> vec byte 12) (n : nat) : Prop :=
  forall i j, i < j < n -> rnd i <> rnd j.

(** Every registered token was made from bytes drawn so far. *)
Definition tokens_drawn (st : state) : Prop :=
  forall k sid, JOIN st !! k = Some sid \/ WATCH st !! k = Some sid ->
    exists i, i < drawn st /\ k = Secrets.token_urlsafe (urandom st i).

(** The join token a first player's coroutine holds is registered for its
    game. *)
Definition join_tokens_held (st : state) : Prop :=
  forall ws c join_key sid,
    conns st !! ws = Some c -> pc_frame (c_pc c) = Some (Start join_key, sid) ->
    JOIN st !! join_key = Some sid.

(** No game has two first players. *)
Definition first_players_distinct (st : state) : Prop :=
  forall ws1 ws2 c1 c2 jk1 jk2 sid,
    conns st !! ws1 = Some c1 -> conns st !! ws2 = Some c2 ->
    pc_frame (c_pc c1) = Some (Start jk1, sid) ->
    pc_frame (c_pc c2) = Some (Start jk2, sid) ->
    ws1 = ws2.

(** What holds of the tokens in the reachable states. *)
Record Drawn (st : state) : Prop := {
  drawn_tokens : tokens_drawn st;
  drawn_held : join_tokens_held st;
  drawn_first : first_players_distinct st
}.

(** The connection a transition acts on. *)
Definition actor (a : action) : nat :=
  match a with
  | Connect ws | Lost ws | Resume ws _ => ws
  end.

End Server.

(** ** An engine for the examples

    Modelled from the spec: a rules engine with the contract of the missing
    connect4.py, on the usual board of seven columns and six rows.  It
    rejects a move out of turn, into a full column or after the game is
    decided, tells the row the disc lands in, and reports the player who
    first has four discs in a line. *)
Module C4.

Record board := {
  b_moves : list move;
  b_winner : option player
}.

Definition empty : board := {| b_moves := []; b_winner := None |}.

Definition last_player (ms : list move) : player :=
  if Nat.even (length ms) then PLAYER2 else PLAYER1.

Definition top (ms : list move) (column : Z) : Z :=
  Z.of_nat (length (filter (fun m : move => m.1.2 = column) ms)).

Definition owns (ms : list move) (p : player) (column row : Z) : bool :=
  bool_decide ((p, column, row) ∈ ms).

(** Discs of [p] in a row from (column, row), excluded, in direction
    (dc, dr), at most [n]. *)
Fixpoint ray (ms : list move) (p : player) (column row dc dr : Z) (n : nat) : nat :=
  match n with
  | O => O
  | S n' =>
      if owns ms p (column + dc) (row + dr)
      then S (ray ms p (column + dc) (row + dr) dc dr n')
      else O
  end.

Definition four (ms : list move) (p : player) (column row : Z) : bool :=
  existsb (fun d : Z * Z =>
    Nat.leb 3 (ray ms p column row d.1 d.2 3 + ray ms p column row (- d.1) (- d.2) 3))
    [(1, 0); (0, 1); (1, 1); (1, -1)]%Z.

Definition play (b : board) (p : player) (column : Z) : outcome * board :=
  if bool_decide (0 <= column < 7)%Z then
    match b_winner b with
    | Some _ => (RuntimeError "The game is over.", b)
    | None =>
        if decide (p = last_player (b_moves b)) then (RuntimeError "It isn't your turn.", b)
        else
          let row := top (b_moves b) column in
          if bool_decide (row = 6%Z) then (RuntimeError "This slot is full.", b)
          else
            let ms := b_moves b ++ [(p, column, row)] in
            (Row row,
             {| b_moves := ms;
                b_winner := if four ms p column row then Some p else None |})
    end
  else (OtherError, b).

End C4.

#[global, program] Instance connect4 : RulesEngine := {|
  game := C4.board;
  Connect4 := C4.empty;
  moves := C4.b_moves;
  winner := C4.b_winner;
  game_play := C4.play
|}.
Next Obligation. reflexivity. Qed.
Next Obligation.
  intros g p column row g'. unfold C4.play.
  repeat (case_bool_decide || case_decide || case_match); intros [= <- <-]; done.
Qed.
Next Obligation.
  intros g p column o g'. unfold C4.play.
  repeat (case_bool_decide || case_decide || case_match); intros [= <- <-]; done.
Qed.

(** ** Scenarios *)
Module Scenario.

(** An entropy source: the n-th token is twelve bytes of value n. *)
Definition rnd (n : nat) : vec byte 12 :=
  vreplicate 12 (default x00 (Byte.of_N (N.of_nat n))).

Definition J1 : string := "AAAAAAAAAAAAAAAA".
Definition W1 : string := "AQEBAQEBAQEBAQEB".

(** A starts a game. *)
Definition started : list action :=
  [Connect 1; Resume 1 (Recv init_start); Resume 1 Drained].

(** A starts a game, then its connection is lost and its handler ends. *)
Definition first_player_gone : list action :=
  started ++ [Lost 1; Resume 1 (Closed true)].

(** A starts, B joins; A plays column 3, B plays column 3. *)
Definition two_moves : list action :=
  started ++
  [Connect 2; Resume 2 (Recv (init_join J1));
   Resume 1 (Recv (play_column 3)); Resume 2 (Recv (play_column 3))].

(** Then C attaches as a spectator; A plays column 0 while the replay to C
    is suspended after its first send. *)
Definition move_during_replay : list action :=
  two_moves ++
  [Connect 3; Resume 3 (Recv (init_watch W1));
   Resume 1 (Recv (play_column 0));
   Resume 3 Drained; Resume 3 Drained].

(** Then a client presents the watch token. *)
Definition watch_after_first_player_gone : list action :=
  first_player_gone ++ [Connect 2; Resume 2 (Recv (init_watch W1))].

(** A starts, B joins. *)
Definition joined : list action :=
  started ++ [Connect 2; Resume 2 (Recv (init_join J1))].

(** A plays column 0 four times and B column 1 three times in between. *)
Definition four_in_a_column : list action :=
  joined ++
  [Resume 1 (Recv (play_column 0)); Resume 2 (Recv (play_column 1));
   Resume 1 (Recv (play_column 0)); Resume 2 (Recv (play_column 1));
   Resume 1 (Recv (play_column 0)); Resume 2 (Recv (play_column 1));
   Resume 1 (Recv (play_column 0))].

(** The state the server is in after [acts]. *)
Definition after (acts : list action) : @state connect4 :=
  default (boot rnd) (run acts (boot rnd)).

Definition sent_to (ws : nat) (st : @state connect4) : option (list event) :=
  c_sent <$> conns st !! ws.

Definition pc_of (ws : nat) (st : @state connect4) : option pc :=
  c_pc <$> conns st !! ws.

Definition open_of (ws : nat) (st : @state connect4) : option bool :=
  c_open <$> conns st !! ws.

Definition log_of (sid : nat) (st : @state connect4) : option (list move) :=
  (fun s => moves (s_game s)) <$> heap st !! sid.

Definition members_of (sid : nat) (st : @state connect4) : list nat :=
  elements (connected st sid).

(** The server accepts [acts] from startup. *)
Definition runs (acts : list action) : bool :=
  match run acts (boot rnd) with Some _ => true | None => false end.

(** The connection [ws] and the session at [sid] in a state that has them. *)
Definition conn (ws : nat) (st : @state connect4) : Connection :=
  default {| c_pc := Done true; c_open := false; c_sent := [] |} (conns st !! ws).

Definition session (sid : nat) (st : @state connect4) : @Session connect4 :=
  default {| s_game := C4.empty; s_connected := ∅ |} (heap st !! sid).

End Scenario.

(** ** Properties *)

Lemma alter_Some {A} (f : A -> A) (m : gmap nat A) i x :
  m !! i = Some x -> alter f i m = <[i := f x]> m.
Proof.
  intros Hi. apply map_eq. intros j.
  rewrite lookup_alter, lookup_insert. case_decide; subst; by rewrite ?Hi.
Qed.

Ltac prims :=
  unfold not_found, leave, finally, finish, set_pc, error, send, broadcast,
    connected_add, connected_remove, set_game, is_open,
    with_conns, with_heap, with_JOIN, with_WATCH in *; simpl in *.

Section Properties.
Context `{Engine : RulesEngine}.

Implicit Types (st : state) (c : Connection) (s : Session) (ws sid : nat).

Lemma conns_set_pc st ws p c :
  conns st !! ws = Some c ->
  conns (set_pc ws p st) =
  <[ws := {| c_pc := p; c_open := c_open c; c_sent := c_sent c |}]> (conns st).
Proof. intros Hc. prims. by rewrite (alter_Some _ _ _ _ Hc). Qed.

Lemma conns_finish st ws raised c :
  conns st !! ws = Some c ->
  conns (finish ws raised st) =
  <[ws := {| c_pc := Done raised; c_open := false; c_sent := c_sent c |}]> (conns st).
Proof. intros Hc. prims. by rewrite (alter_Some _ _ _ _ Hc). Qed.

Lemma send_open st ws e c :
  conns st !! ws = Some c -> c_open c = true ->
  exists st', send ws e st = Some st' /\
    conns st' = <[ws := deliver e c]> (conns st) /\
    heap st' = heap st /\ JOIN st' = JOIN st /\ WATCH st' = WATCH st /\
    urandom st' = urandom st /\ drawn st' = drawn st.
Proof.
  intros Hc Ho. eexists. split.
  { unfold send, is_open. rewrite Hc, Ho. reflexivity. }
  prims. by rewrite (alter_Some _ _ _ _ Hc).
Qed.

Lemma conns_broadcast st (cs : gset nat) e ws :
  conns (broadcast cs e st) !! ws =
  (fun c => if c_open c && bool_decide (ws ∈ cs) then deliver e c else c) <$> conns st !! ws.
Proof. prims. rewrite map_lookup_imap. by destruct (conns st !! ws). Qed.

(** *** Token not found *)

(** C5: a join or watch whose token is not in the corresponding dictionary
    gets the error event "Game not found." and the handler returns once the
    send completes; nothing else is sent to any connection, [JOIN], [WATCH]
    and the heap (so every connection set) are as before, and the finished
    handler takes no further input. *)
Theorem unknown_token_reported st ws c m key :
  conns st !! ws = Some c -> c_pc c = AwaitInit -> c_open c = true ->
  (exists w column,
      m = Json (Some "init"%string) (Some key) w column /\ JOIN st !! key = None) \/
  (exists column,
      m = Json (Some "init"%string) None (Some key) column /\ WATCH st !! key = None) ->
  exists st1 st2,
    resume ws (Recv m) st = Some st1 /\
    resume ws Drained st1 = Some st2 /\
    conns st1 = <[ws := {| c_pc := ErrorNotFound; c_open := true;
                           c_sent := c_sent c ++ [ErrorEvent "Game not found."] |}]> (conns st) /\
    conns st2 = <[ws := {| c_pc := Done false; c_open := false;
                           c_sent := c_sent c ++ [ErrorEvent "Game not found."] |}]> (conns st) /\
    (JOIN st1 = JOIN st /\ WATCH st1 = WATCH st /\ heap st1 = heap st) /\
    (JOIN st2 = JOIN st /\ WATCH st2 = WATCH st /\ heap st2 = heap st) /\
    (forall i, resume ws i st2 = None).
Proof.
  intros Hc Hpc Hopen Hm.
  assert (Hstep : resume ws (Recv m) st = Some (not_found ws st)).
  { unfold resume. rewrite Hc. simpl. rewrite Hpc.
    destruct Hm as [(w & column & -> & Hk) | (column & -> & Hk)];
      unfold handler; rewrite decide_True by done; unfold join, watch; by rewrite Hk. }
  assert (Hnf : conns (not_found ws st) =
                <[ws := {| c_pc := ErrorNotFound; c_open := true;
                           c_sent := c_sent c ++ [ErrorEvent "Game not found."] |}]> (conns st)).
  { prims. rewrite Hc, Hopen. simpl.
    rewrite (alter_Some _ _ _ _ Hc). simpl.
    rewrite (alter_Some _ _ ws (deliver (ErrorEvent "Game not found.") c)) by apply lookup_insert_eq.
    rewrite insert_insert_eq. unfold deliver. by rewrite Hpc, Hopen. }
  exists (not_found ws st), (finish ws false (not_found ws st)).
  split; [done|]. split.
  { unfold resume. rewrite Hnf, lookup_insert_eq. done. }
  split; [done|]. split.
  { prims. rewrite Hc, Hopen in *. simpl in *. rewrite Hnf.
    rewrite (alter_Some _ _ ws _ (lookup_insert_eq _ _ _)). simpl.
    by rewrite insert_insert_eq. }
  split. { prims. by rewrite Hc, Hopen. }
  split. { prims. by rewrite Hc, Hopen. }
  intros i. unfold resume.
  replace (conns (finish ws false (not_found ws st)) !! ws)
    with (Some {| c_pc := Done false; c_open := false;
                  c_sent := c_sent c ++ [ErrorEvent "Game not found."%string] |}).
  { by destruct i. }
  prims. rewrite Hc, Hopen in *. simpl in *. rewrite Hnf.
  by rewrite lookup_alter_eq, lookup_insert_eq.
Qed.


(** *** Moves *)

Lemma heap_set_game st sid g s :
  heap st !! sid = Some s ->
  heap (set_game sid g st) !! sid = Some {| s_game := g; s_connected := s_connected s |} /\
  (forall sid', sid' <> sid -> heap (set_game sid g st) !! sid' = heap st !! sid').
Proof.
  intros Hs. prims. split.
  - by rewrite list_lookup_alter_eq, Hs.
  - intros sid' Hne. by rewrite list_lookup_alter_ne.
Qed.

(** C3: when the rules engine rejects a move with RuntimeError, the error
    event goes to the submitting connection alone (every other connection is
    as before, so nothing is broadcast), the move log of the game is as it
    was, the registry and the connection sets are untouched, and the
    coroutine is back at the head of its receive loop once the send
    completes. *)
Theorem illegal_move_reported st ws c fr sid s j w column exc g' :
  conns st !! ws = Some c -> c_pc c = PlayRecv fr sid -> c_open c = true ->
  heap st !! sid = Some s ->
  game_play (s_game s) (seat fr) column = (RuntimeError exc, g') ->
  exists st1 st2,
    resume ws (Recv (Json (Some "play"%string) j w (Some column))) st = Some st1 /\
    resume ws Drained st1 = Some st2 /\
    conns st1 = <[ws := {| c_pc := PlayError fr sid; c_open := true;
                           c_sent := c_sent c ++ [ErrorEvent exc] |}]> (conns st) /\
    conns st2 = <[ws := {| c_pc := PlayRecv fr sid; c_open := true;
                           c_sent := c_sent c ++ [ErrorEvent exc] |}]> (conns st) /\
    heap st1 !! sid = Some {| s_game := g'; s_connected := s_connected s |} /\
    moves g' = moves (s_game s) /\
    (forall sid', sid' <> sid -> heap st1 !! sid' = heap st !! sid') /\
    heap st2 = heap st1 /\
    (JOIN st1 = JOIN st /\ WATCH st1 = WATCH st) /\
    (JOIN st2 = JOIN st /\ WATCH st2 = WATCH st).
Proof.
  intros Hc Hpc Hopen Hs Hplay.
  pose proof (heap_set_game st sid g' s Hs) as [Hh1 Hh2].
  set (st0 := set_game sid g' st) in *.
  set (c1 := {| c_pc := PlayError fr sid; c_open := true;
                c_sent := c_sent c ++ [ErrorEvent exc] |}).
  set (st1 := set_pc ws (PlayError fr sid)
                (with_conns (alter (deliver (ErrorEvent exc)) ws) st0)).
  assert (Hc1 : conns st1 = <[ws := c1]> (conns st)).
  { subst st1 st0 c1. prims. rewrite (alter_Some _ _ _ _ Hc).
    rewrite (alter_Some _ _ ws (deliver (ErrorEvent exc) c)) by apply lookup_insert_eq.
    rewrite insert_insert_eq. unfold deliver. simpl. by rewrite Hopen. }
  exists st1, (set_pc ws (PlayRecv fr sid) st1). split.
  { unfold resume. rewrite Hc. simpl. rewrite Hpc. unfold play.
    try rewrite decide_True by done. rewrite Hs. simpl. rewrite Hplay.
    unfold error, send. replace (is_open (set_game sid g' st) ws) with true; [done|].
    unfold is_open. simpl. by rewrite Hc, Hopen. }
  split. { unfold resume. fold st1. rewrite Hc1, lookup_insert_eq. done. }
  split; [done|]. split.
  { rewrite (conns_set_pc _ _ _ c1) by (rewrite Hc1; apply lookup_insert_eq).
    by rewrite Hc1, insert_insert_eq. }
  split; [done|]. split.
  { by eapply game_play_raise. }
  done.
Qed.

(** C4: when the rules engine accepts a move, every open member of the
    game's connection set is sent the play event with the player, the column
    and the row the engine returned, followed by a win event naming the
    player exactly when the engine now reports a winner; no other connection
    is sent anything, and the coroutine stays in its receive loop. *)
Theorem accepted_move_broadcast st ws c fr sid s j w column row g' :
  conns st !! ws = Some c -> c_pc c = PlayRecv fr sid ->
  heap st !! sid = Some s ->
  game_play (s_game s) (seat fr) column = (Row row, g') ->
  exists st1,
    resume ws (Recv (Json (Some "play"%string) j w (Some column))) st = Some st1 /\
    (forall ws' c', conns st !! ws' = Some c' ->
       conns st1 !! ws' = Some
         (if c_open c' && bool_decide (ws' ∈ s_connected s) then
            {| c_pc := c_pc c'; c_open := c_open c';
               c_sent := c_sent c' ++ PlayEvent (seat fr) column row ::
                           match winner g' with
                           | Some _ => [WinEvent (seat fr)]
                           | None => []
                           end |}
          else c')) /\
    (forall ws', conns st !! ws' = None -> conns st1 !! ws' = None) /\
    heap st1 !! sid = Some {| s_game := g'; s_connected := s_connected s |} /\
    moves g' = moves (s_game s) ++ [(seat fr, column, row)] /\
    (forall sid', sid' <> sid -> heap st1 !! sid' = heap st !! sid') /\
    JOIN st1 = JOIN st /\ WATCH st1 = WATCH st.
Proof.
  intros Hc Hpc Hs Hplay.
  pose proof (heap_set_game st sid g' s Hs) as [Hh1 Hh2].
  eexists. split.
  { unfold resume. rewrite Hc. simpl. rewrite Hpc. unfold play.
    try rewrite decide_True by done. rewrite Hs. simpl. rewrite Hplay. reflexivity. }
  split.
  { intros ws' c' Hc'. destruct (winner g'); rewrite !conns_broadcast;
      change (conns (set_game sid g' st)) with (conns st); rewrite Hc'; simpl;
      destruct (c_open c') eqn:Ho; simpl; rewrite ?Ho; simpl; try done;
      case_bool_decide; simpl; rewrite ?Ho; simpl; try done.
    - unfold deliver; simpl. by rewrite Ho, <- app_assoc.
    - unfold deliver; simpl. by rewrite Ho. }
  split.
  { intros ws' Hn. destruct (winner g'); rewrite !conns_broadcast;
      change (conns (set_game sid g' st)) with (conns st); by rewrite Hn. }
  split. { by destruct (winner g'). }
  split. { by eapply game_play_row. }
  split. { intros sid' Hne. destruct (winner g'); by apply Hh2. }
  by destruct (winner g').
Qed.

(** *** Protocol violations *)

(** C8: a malformed frame, or one with the wrong tag (an opening message not
    tagged "init"; inside a game, a message not tagged "play" or without a
    column), makes the handler raise: the connection is closed, no
    connection is sent anything, and the server state changes only by the
    finally-clause of the frame the handler was in (none at the opening). *)
Theorem protocol_violation_fatal st ws c m :
  conns st !! ws = Some c ->
  (c_pc c = AwaitInit -> bad_init m ->
     exists st1,
       resume ws (Recv m) st = Some st1 /\
       conns st1 = <[ws := {| c_pc := Done true; c_open := false; c_sent := c_sent c |}]> (conns st) /\
       JOIN st1 = JOIN st /\ WATCH st1 = WATCH st /\ heap st1 = heap st) /\
  (forall fr sid, c_pc c = PlayRecv fr sid -> bad_play m ->
     exists st1,
       resume ws (Recv m) st = Some st1 /\
       conns st1 = <[ws := {| c_pc := Done true; c_open := false; c_sent := c_sent c |}]> (conns st) /\
       JOIN st1 = JOIN (finally fr sid ws st) /\
       WATCH st1 = WATCH st /\
       heap st1 = heap (finally fr sid ws st)).
Proof.
  intros Hc. split.
  - intros Hpc Hbad. exists (finish ws true st). split.
    + unfold resume. rewrite Hc. simpl. rewrite Hpc. unfold handler.
      destruct m as [|type j w column]; [done|]. simpl in Hbad.
      by rewrite decide_False.
    + prims. by rewrite (alter_Some _ _ _ _ Hc).
  - intros fr sid Hpc Hbad. exists (leave fr sid ws true st). split.
    + unfold resume. rewrite Hc. simpl. rewrite Hpc. unfold play.
      destruct m as [|type j w [column|]]; [done| |done]. simpl in Hbad.
      destruct Hbad as [Hbad|?]; [|done]. by rewrite decide_False.
    + destruct fr; prims; by rewrite (alter_Some _ _ _ _ Hc).
Qed.

End Properties.

(** *** Tokens *)

Module SecretsFacts.
Import Secrets.

Lemma alphabet_NoDup : List.NoDup alphabet.
Proof. apply NoDup_ListNoDup. apply (bool_decide_unpack _). by vm_compute. Qed.

Lemma alphabet_no_pad : Forall (fun a => Ascii.eqb a "="%char = false) alphabet.
Proof. repeat constructor. Qed.

Lemma b64char_inj n m :
  (n < 64)%N -> (m < 64)%N -> b64char n = b64char m -> n = m.
Proof.
  intros Hn Hm Heq. unfold b64char in Heq.
  apply N2Nat.inj.
  eapply (proj1 (List.NoDup_nth alphabet "="%char) alphabet_NoDup); [| |exact Heq];
    change (length alphabet) with 64%nat; lia.
Qed.

Lemma b64char_no_pad n : (n < 64)%N -> Ascii.eqb (b64char n) "="%char = false.
Proof.
  intros Hn. unfold b64char.
  pose proof alphabet_no_pad as HF. rewrite Forall_forall in HF.
  apply HF. apply list_elem_of_In. apply List.nth_In.
  change (length alphabet) with 64%nat. lia.
Qed.

Lemma to_N_lt b : (Byte.to_N b < 256)%N.
Proof. pose proof (Byte.to_N_bounded b). lia. Qed.

Lemma to_N_inj b1 b2 : Byte.to_N b1 = Byte.to_N b2 -> b1 = b2.
Proof.
  intros Heq. pose proof (Byte.of_to_N b1) as H1.
  rewrite Heq, Byte.of_to_N in H1. congruence.
Qed.

(** The four sextets of a group of three bytes determine the bytes. *)
Lemma group3_inj a b c a' b' c' :
  (a < 256)%N -> (b < 256)%N -> (c < 256)%N ->
  (a' < 256)%N -> (b' < 256)%N -> (c' < 256)%N ->
  group3 a b c = group3 a' b' c' -> a = a' /\ b = b' /\ c = c'.
Proof.
  intros Ha Hb Hc Ha' Hb' Hc' Heq. unfold group3 in Heq.
  injection Heq as H1 H2 H3 H4.
  apply b64char_inj in H1, H2, H3, H4;
    try (clear -Ha Hb Hc Ha' Hb' Hc'; zify; Z.to_euclidean_division_equations; lia).
  assert (a = a') as <-.
  { clear H3 H4 Hc Hc'. zify; Z.to_euclidean_division_equations; lia. }
  assert (c = c') as <-.
  { clear H1 H2 Ha. zify; Z.to_euclidean_division_equations; lia. }
  assert (b = b') as <-; [|done].
  clear H1 H4 Ha Hc. zify; Z.to_euclidean_division_equations; lia.
Qed.

Lemma group3_no_pad a b c :
  (a < 256)%N -> (b < 256)%N -> (c < 256)%N ->
  Forall (fun x => Ascii.eqb x "="%char = false) (group3 a b c).
Proof.
  intros Ha Hb Hc. unfold group3.
  repeat constructor; apply b64char_no_pad;
    zify; Z.to_euclidean_division_equations; lia.
Qed.

(** Lists of 3k bytes *)
Inductive Groups : list byte -> Prop :=
| Groups_nil : Groups []
| Groups_cons a b c rest : Groups rest -> Groups (a :: b :: c :: rest).

Lemma encode_groups_inj bs1 : Groups bs1 -> forall bs2, Groups bs2 ->
  urlsafe_b64encode bs1 = urlsafe_b64encode bs2 -> bs1 = bs2.
Proof.
  induction 1 as [|a b c rest _ IH]; intros bs2 [|a' b' c' rest' H2] Heq;
    [done|done|done|].
  cbn [urlsafe_b64encode] in Heq.
  assert (Hg : group3 (Byte.to_N a) (Byte.to_N b) (Byte.to_N c) =
               group3 (Byte.to_N a') (Byte.to_N b') (Byte.to_N c') /\
               urlsafe_b64encode rest = urlsafe_b64encode rest').
  { unfold group3 in *. simpl in Heq. injection Heq as -> -> -> -> ->. done. }
  destruct Hg as [Hg Hr].
  apply group3_inj in Hg as (Ha & Hb & Hc); auto using to_N_lt.
  apply to_N_inj in Ha, Hb, Hc. subst. f_equal. f_equal. f_equal. by apply IH.
Qed.

Lemma encode_groups_no_pad bs : Groups bs ->
  Forall (fun x => Ascii.eqb x "="%char = false) (urlsafe_b64encode bs).
Proof.
  induction 1 as [|a b c rest _ IH]; [constructor|].
  cbn [urlsafe_b64encode]. apply Forall_app. split; [|done].
  apply group3_no_pad; apply to_N_lt.
Qed.

Lemma encode_groups_length bs : Groups bs ->
  (3 * length (urlsafe_b64encode bs) = 4 * length bs)%nat.
Proof. induction 1; simpl in *; lia. Qed.

Lemma rstrip_no_pad l :
  Forall (fun x => Ascii.eqb x "="%char = false) l -> rstrip_eq l = l.
Proof.
  intros HF. unfold rstrip_eq.
  assert (Hl : lstrip_eq (rev l) = rev l).
  { apply Forall_rev in HF. destruct HF as [|x l' Hx _]; [done|].
    simpl. by rewrite Hx. }
  by rewrite Hl, rev_involutive.
Qed.

Lemma token_urlsafe_groups_inj bs1 bs2 :
  Groups bs1 -> Groups bs2 -> token_urlsafe bs1 = token_urlsafe bs2 -> bs1 = bs2.
Proof.
  intros H1 H2 Heq. unfold token_urlsafe in Heq.
  rewrite !rstrip_no_pad in Heq by by apply encode_groups_no_pad.
  apply encode_groups_inj; [done..|].
  rewrite <- (String.list_ascii_of_string_of_list_ascii (urlsafe_b64encode bs1)).
  rewrite <- (String.list_ascii_of_string_of_list_ascii (urlsafe_b64encode bs2)).
  by rewrite Heq.
Qed.

Lemma vec12_groups (v : vec byte 12) : Groups (vec_to_list v).
Proof.
  pose proof (length_vec_to_list v) as Hlen.
  destruct (vec_to_list v) as [|b1 [|b2 [|b3 [|b4 [|b5 [|b6 [|b7 [|b8 [|b9
    [|b10 [|b11 [|b12 [|? ?]]]]]]]]]]]]]; try discriminate.
  repeat constructor.
Qed.

(** [token_urlsafe(12)] keeps all 96 bits of the twelve random bytes:
    distinct byte strings give distinct tokens, of sixteen characters each. *)
Lemma token_urlsafe12_inj (v1 v2 : vec byte 12) :
  token_urlsafe (vec_to_list v1) = token_urlsafe (vec_to_list v2) -> v1 = v2.
Proof.
  intros Heq. apply vec_to_list_inj2.
  apply token_urlsafe_groups_inj; auto using vec12_groups.
Qed.

Lemma token_urlsafe12_length (v : vec byte 12) :
  String.length (token_urlsafe (vec_to_list v)) = 16%nat.
Proof.
  unfold token_urlsafe.
  rewrite rstrip_no_pad by apply encode_groups_no_pad, vec12_groups.
  pose proof (encode_groups_length _ (vec12_groups v)) as Hlen.
  rewrite length_vec_to_list in Hlen.
  rewrite <- (String.list_ascii_of_string_of_list_ascii (urlsafe_b64encode v)) in Hlen.
  revert Hlen. generalize (String.string_of_list_ascii (urlsafe_b64encode v)).
  intros s Hlen.
  assert (Hs : length (String.list_ascii_of_string s) = String.length s).
  { clear. induction s; simpl; congruence. }
  lia.
Qed.

End SecretsFacts.

Section Lifecycle.
Context `{Engine : RulesEngine}.

Implicit Types (st : state) (c : Connection) (s : Session) (ws sid : nat).

(** *** Starting a game *)

(** C7: a start draws twelve random bytes twice, one join token and one
    watch token; each token determines the 96 bits it was made from and has
    sixteen characters; the join token is entered in [JOIN] and the watch
    token in [WATCH], both for the new game, whose connection set is the
    starting connection alone and whose move log is empty; and the one init
    event with both tokens is written to the starting connection and to no
    other, in the same atomic step. *)
Theorem start_mints_tokens st ws c column :
  conns st !! ws = Some c -> c_pc c = AwaitInit -> c_open c = true ->
  let sid := length (heap st) in
  let join_key := Secrets.token_urlsafe (urandom st (drawn st)) in
  let watch_key := Secrets.token_urlsafe (urandom st (S (drawn st))) in
  exists st1,
    resume ws (Recv (Json (Some "init"%string) None None column)) st = Some st1 /\
    JOIN st1 = <[join_key := sid]> (JOIN st) /\
    WATCH st1 = <[watch_key := sid]> (WATCH st) /\
    heap st1 = heap st ++ [{| s_game := Connect4; s_connected := {[ws]} |}] /\
    moves Connect4 = [] /\
    conns st1 = <[ws := {| c_pc := SendInit sid join_key; c_open := true;
                           c_sent := c_sent c ++ [InitEvent join_key watch_key] |}]> (conns st) /\
    drawn st1 = S (S (drawn st)) /\
    (forall v : vec byte 12,
        Secrets.token_urlsafe v = join_key -> v = urandom st (drawn st)) /\
    (forall v : vec byte 12,
        Secrets.token_urlsafe v = watch_key -> v = urandom st (S (drawn st))) /\
    String.length join_key = 16 /\ String.length watch_key = 16.
Proof.
  intros Hc Hpc Hopen sid join_key watch_key.
  eexists. split.
  { unfold resume. rewrite Hc. simpl. rewrite Hpc. unfold handler, start.
    simpl. unfold send, is_open. simpl. rewrite Hc, Hopen. reflexivity. }
  split; [done|]. split; [done|]. split; [done|].
  split; [apply Connect4_moves|]. split.
  { prims. rewrite (alter_Some _ _ _ _ Hc).
    rewrite (alter_Some _ _ ws (deliver (InitEvent join_key watch_key) c))
      by apply lookup_insert_eq.
    rewrite insert_insert_eq. unfold deliver. simpl. by rewrite Hopen. }
  split; [done|].
  split; [intros v Hv; by apply SecretsFacts.token_urlsafe12_inj|].
  split; [intros v Hv; by apply SecretsFacts.token_urlsafe12_inj|].
  split; apply SecretsFacts.token_urlsafe12_length.
Qed.

(** *** Attaching to a game *)

Lemma run_app acts1 acts2 st :
  run (acts1 ++ acts2) st = run acts1 st ≫= run acts2.
Proof.
  revert st. induction acts1 as [|a acts1 IH]; intros st; simpl; [done|].
  destruct (step a st); simpl; [apply IH|done].
Qed.

Lemma with_conns_insert_id st ws c :
  conns st !! ws = Some c -> with_conns (insert ws c) st = st.
Proof. intros Hc. destruct st. unfold with_conns. simpl in *. by rewrite insert_id. Qed.

Lemma with_conns_insert_insert st ws c1 c2 :
  with_conns (insert ws c2) (with_conns (insert ws c1) st) = with_conns (insert ws c2) st.
Proof. unfold with_conns. simpl. by rewrite insert_insert_eq. Qed.

Lemma replay_cons st ws c fr sid m rest :
  conns st !! ws = Some c -> c_open c = true ->
  replay fr sid ws (m :: rest) st =
  with_conns (insert ws {| c_pc := Replay fr sid rest; c_open := true;
                           c_sent := c_sent c ++ [PlayEvent m.1.1 m.1.2 m.2] |}) st.
Proof.
  intros Hc Ho. destruct m as [[p column] row]. simpl. prims. rewrite Hc, Ho.
  f_equal. rewrite (alter_Some _ _ _ _ Hc).
  rewrite (alter_Some _ _ ws (deliver (PlayEvent p column row) c)) by apply lookup_insert_eq.
  simpl. rewrite insert_insert_eq. by rewrite Ho.
Qed.

Lemma replay_nil st ws c fr sid :
  conns st !! ws = Some c -> c_open c = true -> pc_wf (Replay fr sid []) ->
  replay fr sid ws [] st =
  with_conns (insert ws {| c_pc := live_pc fr sid; c_open := true; c_sent := c_sent c |}) st.
Proof.
  intros Hc Ho Hwf. destruct fr; [done| |]; simpl; prims; rewrite ?Hc, ?Ho;
    f_equal; by rewrite (alter_Some _ _ _ _ Hc), Ho.
Qed.

Lemma drains_replay fr sid ws k : forall rest st c,
  conns st !! ws = Some c -> c_pc c = Replay fr sid rest -> c_open c = true ->
  pc_wf (Replay fr sid rest) -> k <= S (length rest) ->
  run (drains ws k) st =
  Some (with_conns (insert ws (replaying fr sid rest k (c_sent c))) st).
Proof.
  induction k as [|k IH]; intros rest st c Hc Hpc Ho Hwf Hk.
  { simpl. f_equal. symmetry. apply with_conns_insert_id.
    rewrite Hc. f_equal. destruct c. unfold replaying. simpl in *.
    by rewrite drop_0, app_nil_r, Hpc, Ho. }
  simpl. unfold resume. rewrite Hc. simpl. rewrite Hpc. simpl.
  destruct rest as [|m rest].
  - assert (k = 0) as -> by (simpl in Hk; lia).
    rewrite (replay_nil _ _ c) by done. simpl. do 3 f_equal.
    unfold replaying. simpl. by rewrite app_nil_r.
  - rewrite (replay_cons _ _ c) by done.
    erewrite IH; [|apply lookup_insert_eq|done|done|by destruct fr|simpl in *; lia].
    rewrite with_conns_insert_insert. f_equal. f_equal. f_equal.
    unfold replaying. simpl.
    rewrite (bool_decide_ext (k ≤ length rest) (S k ≤ S (length rest))) by lia.
    f_equal. by rewrite <- app_assoc.
Qed.

Lemma attach_run fr sid ws st c s k :
  conns st !! ws = Some c -> c_open c = true -> heap st !! sid = Some s ->
  is_start fr = false ->
  k <= length (moves (s_game s)) ->
  attach fr sid ws st ≫= run (drains ws k) =
  Some (with_conns (insert ws (replaying fr sid (moves (s_game s)) (S k) (c_sent c)))
          (connected_add sid ws st)).
Proof.
  intros Hc Ho Hs Hfr Hk. unfold attach. rewrite Hs. simpl.
  assert (Hwf : forall rest, pc_wf (Replay fr sid rest)) by (by destruct fr).
  destruct (moves (s_game s)) as [|m rest] eqn:Hmv.
  - assert (k = 0) as -> by (simpl in Hk; lia).
    rewrite (replay_nil _ _ c) by done. simpl. do 3 f_equal.
    unfold replaying. simpl. by rewrite app_nil_r.
  - rewrite (replay_cons _ _ c) by done.
    erewrite drains_replay; [|apply lookup_insert_eq|done|done|done|simpl in *; lia].
    rewrite with_conns_insert_insert. f_equal. f_equal. f_equal.
    unfold replaying. simpl.
    rewrite (bool_decide_ext (k ≤ length rest) (S k ≤ S (length rest))) by lia.
    f_equal. by rewrite <- app_assoc.
Qed.


(** *** Any number of second players *)

Lemma joins_run key sid : forall (joiners : list nat) st s,
  JOIN st !! key = Some sid -> heap st !! sid = Some s ->
  NoDup joiners -> (forall ws, ws ∈ joiners -> conns st !! ws = None) ->
  exists st' s',
    run (flat_map (joins key (length (moves (s_game s)))) joiners) st = Some st' /\
    JOIN st' = JOIN st /\ WATCH st' = WATCH st /\
    heap st' !! sid = Some s' /\ s_game s' = s_game s /\
    (forall ws, ws ∈ s_connected s' <-> ws ∈ joiners \/ ws ∈ s_connected s) /\
    (forall ws, ws ∈ joiners ->
       conns st' !! ws = Some {| c_pc := PlayRecv Join sid; c_open := true;
                                 c_sent := play_events (moves (s_game s)) |}) /\
    (forall ws, ws ∉ joiners -> conns st' !! ws = conns st !! ws).
Proof.
  induction joiners as [|ws joiners IH]; intros st s Hkey Hs Hnd Hnew.
  { exists st, s. simpl. split_and!; try done; set_solver. }
  apply NoDup_cons in Hnd as [Hws Hnd].
  set (n := length (moves (s_game s))).
  set (c0 := {| c_pc := AwaitInit; c_open := true; c_sent := [] |}).
  set (st0 := with_conns (insert ws c0) st).
  set (c1 := replaying Join sid (moves (s_game s)) (S n) []).
  set (st1 := with_conns (insert ws c1) (connected_add sid ws st0)).
  assert (Hrun1 : run (joins key n ws) st = Some st1).
  { unfold joins. simpl. rewrite (Hnew ws) by set_solver. fold c0 st0.
    change (resume ws (Recv (init_join key)) st0 ≫= run (drains ws n) = Some st1).
    assert (Hc0 : conns st0 !! ws = Some c0) by apply lookup_insert_eq.
    unfold resume. rewrite Hc0. simpl. unfold join.
    change (JOIN st0) with (JOIN st). rewrite Hkey.
    by apply (attach_run Join sid ws st0 c0 s n). }
  destruct (IH st1 {| s_game := s_game s; s_connected := {[ws]} ∪ s_connected s |})
    as (st' & s' & Hrun & HJ & HW & Hs' & Hg & Hmem & Hin & Hout).
  { done. }
  { subst st1 st0. prims. by rewrite list_lookup_alter_eq, Hs. }
  { done. }
  { intros w Hw. subst st1 st0. prims.
    rewrite !lookup_insert_ne by set_solver. apply Hnew. set_solver. }
  exists st', s'. simpl in Hrun, Hg, Hmem. split.
  { cbn [flat_map]. rewrite run_app. fold n. rewrite Hrun1. exact Hrun. }
  split; [done|]. split; [done|]. split; [done|]. split; [done|]. split.
  { intros w. rewrite Hmem. set_solver. }
  split.
  - intros w Hw. apply elem_of_cons in Hw as [->|Hw]; [|by apply Hin].
    rewrite (Hout ws Hws). subst st1. simpl. rewrite lookup_insert_eq.
    subst c1. unfold replaying. rewrite bool_decide_false by (subst n; lia).
    simpl. subst n. by rewrite take_ge by lia.
  - intros w Hw. rewrite Hout by set_solver. subst st1 st0. simpl.
    rewrite !lookup_insert_ne by set_solver. done.
Qed.

(** C9: [join] does not check whether the game already has a second player.
    Whatever the state, when a join token is registered every one of any
    number of new connections that present it is added to the game's
    connection set and ends up in the receive loop of [play] with PLAYER2,
    all of them at once. *)
Theorem second_players_unbounded st key sid s (joiners : list nat) :
  JOIN st !! key = Some sid -> heap st !! sid = Some s ->
  NoDup joiners -> (forall ws, ws ∈ joiners -> conns st !! ws = None) ->
  exists st' s',
    run (flat_map (joins key (length (moves (s_game s)))) joiners) st = Some st' /\
    JOIN st' !! key = Some sid /\
    heap st' !! sid = Some s' /\ s_game s' = s_game s /\
    (forall ws, ws ∈ joiners ->
       ws ∈ s_connected s' /\
       conns st' !! ws = Some {| c_pc := PlayRecv Join sid; c_open := true;
                                 c_sent := play_events (moves (s_game s)) |}) /\
    seat Join = PLAYER2.
Proof.
  intros Hkey Hs Hnd Hnew.
  destruct (joins_run key sid joiners st s Hkey Hs Hnd Hnew)
    as (st' & s' & Hrun & HJ & _ & Hs' & Hg & Hmem & Hin & _).
  exists st', s'. repeat split; try done.
  - by rewrite HJ.
  - apply Hmem. by left.
  - by apply Hin.
Qed.

End Lifecycle.

(** ** Every transition has one of the effects *)

Section MergeFacts.
Context {A : Type}.
Implicit Types l : list A.

Lemma Merge_snoc_left l1 l2 l x : Merge l1 l2 l -> Merge (l1 ++ [x]) l2 (l ++ [x]).
Proof.
  induction 1; simpl; try (constructor; assumption).
  repeat constructor.
Qed.

Lemma Merge_snoc_right l1 l2 l x : Merge l1 l2 l -> Merge l1 (l2 ++ [x]) (l ++ [x]).
Proof.
  induction 1; simpl; try (constructor; assumption).
  repeat constructor.
Qed.

Lemma Merge_nil_left l2 l : Merge [] l2 l -> l = l2.
Proof.
  remember [] as l1 eqn:Hl1. induction 1; try done.
  f_equal. auto.
Qed.

Lemma Merge_nil_right l1 l : Merge l1 [] l -> l = l1.
Proof.
  remember [] as l2 eqn:Hl2. induction 1; try done.
  f_equal. auto.
Qed.

Lemma Merge_Permutation l1 l2 l : Merge l1 l2 l -> l ≡ₚ l1 ++ l2.
Proof.
  induction 1 as [|x l1 l2 l _ IH|x l1 l2 l _ IH]; simpl; [done|by f_equiv|].
  rewrite IH. apply Permutation_middle.
Qed.

Lemma Merge_length l1 l2 l : Merge l1 l2 l -> length l = length l1 + length l2.
Proof. induction 1; simpl; lia. Qed.

End MergeFacts.

Lemma plays_app sent1 sent2 : plays (sent1 ++ sent2) = plays sent1 ++ plays sent2.
Proof. unfold plays. apply omap_app. Qed.

Lemma plays_play_events ms : plays (play_events ms) = ms.
Proof.
  induction ms as [|[[p column] row] ms IH]; [done|].
  simpl. unfold plays in *. simpl. by rewrite IH.
Qed.

Lemma delivered_ext p p' sent sent' log :
  pending p' = pending p -> first_player p' = first_player p ->
  plays sent' = plays sent ->
  delivered p sent log -> delivered p' sent' log.
Proof.
  intros Hp Hf Hs (replayed & live & Hlog & Hm & Hfirst).
  exists replayed, live. rewrite Hp, Hf, Hs. done.
Qed.

Lemma delivered_replay fr sid p column row rest sent log :
  is_start fr = false ->
  delivered (Replay fr sid ((p, column, row) :: rest)) sent log ->
  delivered (Replay fr sid rest) (sent ++ [PlayEvent p column row]) log.
Proof.
  intros Hfr (replayed & live & Hlog & Hm & _).
  exists (replayed ++ [(p, column, row)]), live. simpl in *. split.
  { by rewrite Hlog, <- app_assoc. }
  split.
  { rewrite plays_app. by apply Merge_snoc_left. }
  unfold first_player. simpl. by rewrite Hfr.
Qed.

Lemma delivered_broadcast pc0 sent log p column row es :
  plays es = [] ->
  delivered pc0 sent log ->
  delivered pc0 (sent ++ PlayEvent p column row :: es) (log ++ [(p, column, row)]).
Proof.
  intros Hes (replayed & live & Hlog & Hm & Hfirst).
  exists replayed, (live ++ [(p, column, row)]). split.
  { by rewrite Hlog, <- !app_assoc. }
  split; [|done]. rewrite plays_app.
  change (plays (PlayEvent p column row :: es)) with ((p, column, row) :: plays es).
  rewrite Hes. by apply Merge_snoc_right.
Qed.

Lemma delivered_empty pc0 sent :
  pending pc0 = [] -> plays sent = [] -> delivered pc0 sent [].
Proof.
  intros Hp Hs. exists [], []. rewrite Hp, Hs. split; [done|]. split; [constructor|done].
Qed.

Section Transitions.
Context `{Engine : RulesEngine}.

Implicit Types (st : state) (c : Connection) (s : Session) (ws sid : nat).

Lemma heap_rel_refl (h : list Session) : heap_rel keep keep h h.
Proof. intros sid. destruct (h !! sid); by constructor. Qed.

Lemma heap_rel_alter f k f' k' (h h0 : list Session) sid g :
  heap_rel f k h h0 ->
  (forall s s0, h !! sid = Some s -> h0 !! sid = Some s0 ->
     moves (s_game s0) = k sid (moves (s_game s)) ->
     s_connected s0 = f sid (s_connected s) ->
     moves (s_game (g s0)) = k' sid (moves (s_game s)) /\
     s_connected (g s0) = f' sid (s_connected s)) ->
  (forall sid' S, sid' <> sid -> f' sid' S = f sid' S) ->
  (forall sid' l, sid' <> sid -> k' sid' l = k sid' l) ->
  heap_rel f' k' h (alter g sid h0).
Proof.
  intros Hrel Hg Hf Hk sid'. specialize (Hrel sid').
  destruct (decide (sid' = sid)) as [->|Hne].
  - rewrite list_lookup_alter_eq.
    inversion Hrel as [s s0 [Hm Hc] Hs Hs0|]; simpl; constructor.
    by apply Hg.
  - rewrite list_lookup_alter_ne by done.
    inversion Hrel as [s s0 [Hm Hc] Hs Hs0|]; constructor.
    by rewrite Hf, Hk.
Qed.

Lemma heap_rel_set_game st sid s g' :
  heap st !! sid = Some s -> moves g' = moves (s_game s) ->
  heap_rel keep keep (heap st) (heap (set_game sid g' st)).
Proof.
  intros Hs Hm. apply (heap_rel_alter keep keep); [apply heap_rel_refl| |done..].
  intros s1 s0 Hs1 Hs0 _ Hcs. simpl. split; [|done].
  rewrite Hs in Hs1. by injection Hs1 as <-.
Qed.

Lemma heap_rel_remove (h h0 : list Session) sid ws :
  heap_rel keep keep h h0 ->
  heap_rel (only sid (fun S => S ∖ {[ws]})) keep h
    (alter (fun s => {| s_game := s_game s; s_connected := s_connected s ∖ {[ws]} |}) sid h0).
Proof.
  intros Hh. apply (heap_rel_alter keep keep); [exact Hh| | |done].
  - intros s s0 _ _ Hm Hcs. simpl. unfold only. rewrite decide_True by done.
    by rewrite Hm, Hcs.
  - intros sid' S Hne. unfold only. by rewrite decide_False.
Qed.

(** *** The handler ends *)

Lemma effect_finish st ws i c raised :
  conns st !! ws = Some c -> pc_frame (c_pc c) = None ->
  Effect st (Resume ws i) (finish ws raised st).
Proof.
  intros Hc Hfr. eapply E_finish; try done. by apply conns_finish.
Qed.

(** [st0] is [st] or [st] with a game that has the same move log. *)
Lemma effect_leave st st0 ws i c fr sid raised :
  conns st !! ws = Some c -> pc_frame (c_pc c) = Some (fr, sid) ->
  conns st0 = conns st -> JOIN st0 = JOIN st -> WATCH st0 = WATCH st ->
  heap_rel keep keep (heap st) (heap st0) ->
  Effect st (Resume ws i) (leave fr sid ws raised st0).
Proof.
  intros Hc Hfr Hc0 HJ HW Hh.
  assert (Hc' : conns (leave fr sid ws raised st0) =
    <[ws := {| c_pc := Done (raised || finally_raises fr sid ws st0); c_open := false;
               c_sent := c_sent c |}]> (conns st)).
  { unfold leave. rewrite (conns_finish _ _ _ c); [|by destruct fr; simpl; rewrite Hc0].
    by destruct fr; simpl; rewrite Hc0. }
  destruct fr as [join_key| |].
  - eapply E_leave_start; try done. simpl. by rewrite HJ.
  - eapply E_detach; try done. by apply heap_rel_remove.
  - eapply E_detach; try done. by apply heap_rel_remove.
Qed.

(** *** The coroutine moves on inside its frame *)

Lemma first_player_frame p p' : pc_frame p' = pc_frame p -> first_player p' = first_player p.
Proof. unfold first_player. by intros ->. Qed.

Lemma effect_goto st st0 ws i c p' :
  conns st !! ws = Some c ->
  conns st0 = conns st -> JOIN st0 = JOIN st -> WATCH st0 = WATCH st ->
  heap_rel keep keep (heap st) (heap st0) ->
  pc_frame p' = pc_frame (c_pc c) -> pending p' = pending (c_pc c) ->
  p' <> AwaitInit -> pc_wf p' ->
  Effect st (Resume ws i) (set_pc ws p' st0).
Proof.
  intros Hc Hc0 HJ HW Hh Hfr Hpend Hne Hwf.
  eapply (E_stay st ws i c {| c_pc := p'; c_open := c_open c; c_sent := c_sent c |});
    try done.
  - rewrite (conns_set_pc _ _ _ c) by by rewrite Hc0. by rewrite Hc0.
  - intros log. simpl. apply delivered_ext; [done| |done].
    by apply first_player_frame.
Qed.

Lemma effect_send_goto st st0 st1 ws i c e p' :
  conns st !! ws = Some c ->
  conns st0 = conns st -> JOIN st0 = JOIN st -> WATCH st0 = WATCH st ->
  heap_rel keep keep (heap st) (heap st0) ->
  pc_frame p' = pc_frame (c_pc c) -> pending p' = pending (c_pc c) ->
  p' <> AwaitInit -> pc_wf p' ->
  plays [e] = [] -> send ws e st0 = Some st1 ->
  Effect st (Resume ws i) (set_pc ws p' st1).
Proof.
  intros Hc Hc0 HJ HW Hh Hfr Hpend Hne Hwf He Hsend.
  assert (Ho : c_open c = true).
  { unfold send, is_open in Hsend. rewrite Hc0, Hc in Hsend. by destruct (c_open c). }
  destruct (send_open st0 ws e c) as (st1' & Hsend' & Hc1 & Hh1 & HJ1 & HW1 & _);
    [by rewrite Hc0|done|].
  rewrite Hsend in Hsend'. injection Hsend' as <-.
  eapply (E_stay st ws i c {| c_pc := p'; c_open := true; c_sent := c_sent c ++ [e] |});
    try done.
  - rewrite (conns_set_pc _ _ _ (deliver e c)) by (rewrite Hc1; apply lookup_insert_eq).
    rewrite Hc1, insert_insert_eq, Hc0. simpl. by rewrite Ho.
  - simpl. by rewrite Hh1.
  - simpl. by rewrite HJ1.
  - simpl. by rewrite HW1.
  - intros log. simpl. apply delivered_ext; [done|by apply first_player_frame|].
    rewrite plays_app, He. apply app_nil_r.
Qed.

(** *** replay *)

Ltac side :=
  match goal with
  | Hpc : c_pc _ = _ |- _ =>
      first [done | apply heap_rel_refl | by rewrite Hpc | by eauto]
  end.

Lemma effect_replay st ws i c fr sid rest :
  conns st !! ws = Some c -> c_pc c = Replay fr sid rest -> pc_wf (c_pc c) ->
  Effect st (Resume ws i) (replay fr sid ws rest st).
Proof.
  intros Hc Hpc Hwf. rewrite Hpc in Hwf.
  assert (Hfr : is_start fr = false) by (by destruct fr).
  assert (Hframe : pc_frame (c_pc c) = Some (fr, sid)) by (by rewrite Hpc).
  destruct rest as [|[[p column] row] rest]; simpl.
  - unfold after_replay. destruct fr; [done| |].
    + apply (effect_goto st st ws i c); side.
    + destruct (is_open st ws).
      * apply (effect_goto st st ws i c); side.
      * eapply effect_leave; side.
  - destruct (send ws (PlayEvent p column row) st) as [st1|] eqn:Hsend.
    + assert (Ho : c_open c = true).
      { unfold send, is_open in Hsend. rewrite Hc in Hsend. by destruct (c_open c). }
      destruct (send_open st ws (PlayEvent p column row) c)
        as (st1' & Hsend' & Hc1 & Hh1 & HJ1 & HW1 & _); [done..|].
      rewrite Hsend in Hsend'. injection Hsend' as <-.
      eapply (E_stay st ws i c {| c_pc := Replay fr sid rest; c_open := true;
                                  c_sent := c_sent c ++ [PlayEvent p column row] |});
        try done.
      * rewrite (conns_set_pc _ _ _ (deliver (PlayEvent p column row) c))
          by (rewrite Hc1; apply lookup_insert_eq).
        rewrite Hc1, insert_insert_eq. simpl. by rewrite Ho.
      * simpl. rewrite Hh1. apply heap_rel_refl.
      * intros log. rewrite Hpc. simpl. by apply delivered_replay.
    + eapply effect_leave; side.
Qed.

(** *** play *)

Lemma effect_play st st' ws c fr sid m :
  conns st !! ws = Some c -> c_pc c = PlayRecv fr sid ->
  play fr sid ws m st = Some st' ->
  Effect st (Resume ws (Recv m)) st'.
Proof.
  intros Hc Hpc Hplay.
  assert (Hframe : pc_frame (c_pc c) = Some (fr, sid)) by (by rewrite Hpc).
  assert (Hout : forall raised, Effect st (Resume ws (Recv m)) (leave fr sid ws raised st)).
  { intros raised. eapply effect_leave; try done. apply heap_rel_refl. }
  unfold play in Hplay. destruct m as [|type j w [column|]];
    [injection Hplay as <-; apply Hout| |injection Hplay as <-; apply Hout].
  case_decide; [|injection Hplay as <-; apply Hout].
  destruct (heap st !! sid) as [s|] eqn:Hs; [|done]. simpl in Hplay.
  destruct (game_play (s_game s) (seat fr) column) as [o g'] eqn:Hgp.
  injection Hplay as <-.
  destruct o as [row|exc|].
  - (* accepted *)
    eapply (E_accept st ws _ c fr sid s column row g'); try done.
    + intros w'. unfold move_events.
      destruct (winner g'); rewrite !conns_broadcast;
        change (conns (set_game sid g' st)) with (conns st);
        destruct (conns st !! w') as [cw|]; simpl; [|done| |done];
        destruct (c_open cw) eqn:Ho; simpl; rewrite ?Ho; simpl; try done;
        case_bool_decide; simpl; rewrite ?Ho; simpl; try done.
      * unfold deliver; simpl. by rewrite Ho, <- app_assoc.
      * unfold deliver; simpl. by rewrite Ho.
    + assert (Hh : heap_rel keep (only sid (fun l => l ++ [(seat fr, column, row)]))
                     (heap st) (heap (set_game sid g' st))).
      { simpl. apply (heap_rel_alter keep keep); [apply heap_rel_refl| |done|].
        - intros s1 s0 Hs1 Hs0 _ Hcs. simpl. unfold only. rewrite decide_True by done.
          split; [|done]. rewrite Hs in Hs1. injection Hs1 as <-.
          by eapply game_play_row.
        - intros sid' l Hne. unfold only. by rewrite decide_False. }
      by destruct (winner g').
    + by destruct (winner g').
    + by destruct (winner g').
  - (* illegal *)
    assert (Hh : heap_rel keep keep (heap st) (heap (set_game sid g' st))).
    { eapply heap_rel_set_game; [done|]. by eapply game_play_raise. }
    unfold error.
    destruct (send ws (ErrorEvent exc) (set_game sid g' st)) as [st1|] eqn:Hsend.
    + eapply (effect_send_goto st (set_game sid g' st) st1 ws _ c (ErrorEvent exc)); side.
    + eapply effect_leave; side.
  - (* another exception *)
    eapply effect_leave; try done.
    eapply heap_rel_set_game; [done|]. by eapply game_play_raise.
Qed.

(** *** The opening message *)

Lemma effect_not_found st ws i c :
  conns st !! ws = Some c -> c_pc c = AwaitInit ->
  Effect st (Resume ws i) (not_found ws st).
Proof.
  intros Hc Hpc. unfold not_found, error.
  destruct (send ws (ErrorEvent "Game not found.") st) as [st1|] eqn:Hsend.
  - eapply (effect_send_goto st st st1 ws _ c (ErrorEvent "Game not found.")); side.
  - apply (effect_finish st ws i c); side.
Qed.

Lemma heap_rel_add (h : list Session) sid ws :
  heap_rel (only sid (fun S => {[ws]} ∪ S)) keep h
    (alter (fun s => {| s_game := s_game s; s_connected := {[ws]} ∪ s_connected s |}) sid h).
Proof.
  apply (heap_rel_alter keep keep); [apply heap_rel_refl| | |done].
  - intros s s0 _ _ Hm Hcs. simpl. unfold only. rewrite decide_True by done.
    by rewrite Hm, Hcs.
  - intros sid' S Hne. unfold only. by rewrite decide_False.
Qed.

Lemma heap_rel_add_remove (h : list Session) sid ws :
  heap_rel (only sid (fun S => ({[ws]} ∪ S) ∖ {[ws]})) keep h
    (alter (fun s => {| s_game := s_game s; s_connected := s_connected s ∖ {[ws]} |}) sid
       (alter (fun s => {| s_game := s_game s; s_connected := {[ws]} ∪ s_connected s |}) sid h)).
Proof.
  apply (heap_rel_alter (only sid (fun S => {[ws]} ∪ S)) keep); [apply heap_rel_add| | |done].
  - intros s s0 _ _ Hm Hcs. simpl. unfold only in *. rewrite decide_True in * by done.
    by rewrite Hm, Hcs.
  - intros sid' S Hne. unfold only. by rewrite !decide_False.
Qed.

Lemma effect_attach st st' ws i c fr sid :
  conns st !! ws = Some c -> c_pc c = AwaitInit -> is_start fr = false ->
  attach fr sid ws st = Some st' ->
  Effect st (Resume ws i) st'.
Proof.
  intros Hc Hpc Hfr Hatt. unfold attach in Hatt.
  destruct (heap st !! sid) as [s|] eqn:Hs; [|done]. simpl in Hatt.
  injection Hatt as <-.
  set (st0 := connected_add sid ws st).
  assert (Hc0 : conns st0 !! ws = Some c) by done.
  assert (Hclosed : forall raised, c_open c = false ->
            Effect st (Resume ws i) (leave fr sid ws raised st0)).
  { intros raised Ho.
    destruct fr; [done| |];
      (eapply (E_attach_closed st ws i c sid); try done;
       [unfold leave; rewrite (conns_finish _ _ _ c) by done;
        match goal with |- context [Done ?b] => destruct b end; [by left|by right]
       |apply heap_rel_add_remove]). }
  destruct (moves (s_game s)) as [|[[p column] row] rest] eqn:Hmv; simpl.
  - (* nothing to replay *)
    unfold after_replay.
    assert (Hgo : forall p', pc_frame p' = Some (fr, sid) -> pending p' = [] ->
              pc_wf p' -> Effect st (Resume ws i) (set_pc ws p' st0)).
    { intros p' Hp' Hpend Hwf.
      eapply (E_attach st ws i c fr sid s
                {| c_pc := p'; c_open := c_open c; c_sent := c_sent c |}); try done.
      - by rewrite (conns_set_pc _ _ _ c).
      - apply heap_rel_add.
      - intros Hsent. simpl. rewrite Hmv, Hsent. by apply delivered_empty. }
    destruct fr; [done|by apply Hgo|].
    destruct (is_open st0 ws) eqn:Ho; [by apply Hgo|].
    apply Hclosed. unfold is_open in Ho. by rewrite Hc0 in Ho.
  - (* the first move of the snapshot is sent at once *)
    destruct (send ws (PlayEvent p column row) st0) as [st1|] eqn:Hsend.
    + assert (Ho : c_open c = true).
      { unfold send, is_open in Hsend. rewrite Hc0 in Hsend. by destruct (c_open c). }
      destruct (send_open st0 ws (PlayEvent p column row) c)
        as (st1' & Hsend' & Hc1 & Hh1 & HJ1 & HW1 & _); [done..|].
      rewrite Hsend in Hsend'. injection Hsend' as <-.
      eapply (E_attach st ws i c fr sid s
                {| c_pc := Replay fr sid rest; c_open := true;
                   c_sent := c_sent c ++ [PlayEvent p column row] |}); try done.
      * rewrite (conns_set_pc _ _ _ (deliver (PlayEvent p column row) c))
          by (rewrite Hc1; apply lookup_insert_eq).
        rewrite Hc1, insert_insert_eq. simpl. by rewrite Ho.
      * simpl. rewrite Hh1. apply heap_rel_add.
      * by destruct fr.
      * intros Hsent. simpl. rewrite Hmv, Hsent.
        exists [(p, column, row)], []. simpl. split; [by rewrite app_nil_r|].
        split; [repeat constructor|]. unfold first_player. simpl. by rewrite Hfr.
    + apply Hclosed. unfold send, is_open in Hsend. rewrite Hc0 in Hsend.
      by destruct (c_open c).
Qed.

Lemma effect_start st ws i c :
  conns st !! ws = Some c -> c_pc c = AwaitInit ->
  Effect st (Resume ws i) (start ws st).
Proof.
  intros Hc Hpc. unfold start. simpl.
  set (join_key := Secrets.token_urlsafe (urandom st (drawn st))).
  set (watch_key := Secrets.token_urlsafe (urandom st (S (drawn st)))).
  match goal with |- context [send ws ?e ?st0] => set (stR := st0) end.
  assert (HcR : conns stR !! ws = Some c) by done.
  destruct (send ws (InitEvent join_key watch_key) stR) as [st1|] eqn:Hsend.
  - assert (Ho : c_open c = true).
    { unfold send, is_open in Hsend. rewrite HcR in Hsend. by destruct (c_open c). }
    destruct (send_open stR ws (InitEvent join_key watch_key) c)
      as (st1' & Hsend' & Hc1 & Hh1 & HJ1 & HW1 & _); [done..|].
    rewrite Hsend in Hsend'. injection Hsend' as <-.
    eapply (E_start st ws i c
              {| c_pc := SendInit (length (heap st)) join_key; c_open := true;
                 c_sent := c_sent c ++ [InitEvent join_key watch_key] |}
              join_key watch_key); try done.
    + rewrite (conns_set_pc _ _ _ (deliver (InitEvent join_key watch_key) c))
        by (rewrite Hc1; apply lookup_insert_eq).
      rewrite Hc1, insert_insert_eq. simpl. by rewrite Ho.
    + left. split; [done|]. split; [done|]. simpl. by rewrite HJ1.
  - assert (Ho : c_open c = false).
    { unfold send, is_open in Hsend. rewrite HcR in Hsend. by destruct (c_open c). }
    eapply (E_start st ws i c {| c_pc := Done true; c_open := false; c_sent := c_sent c |}
              join_key watch_key); try done.
    + unfold leave. by rewrite (conns_finish _ _ _ c).
    + by right.
Qed.

(** *** All transitions *)

Lemma resume_Effect st st' ws i :
  wf_state st -> resume ws i st = Some st' -> Effect st (Resume ws i) st'.
Proof.
  intros Hwf Hres. unfold resume in Hres.
  destruct (conns st !! ws) as [c|] eqn:Hc; [|done]. simpl in Hres.
  specialize (Hwf ws c Hc).
  destruct (c_pc c) as [| |sid join_key|fr sid rest|fr sid|fr sid|sid|raised] eqn:Hpc;
    destruct i as [m| |ok|]; try done;
    repeat match type of Hres with
           | (if ?b then _ else _) = _ => destruct b eqn:?; [done|]
           end;
    try (injection Hres as <-).
  - (* handler *)
    unfold handler in Hres. destruct m as [|type j w column].
    { injection Hres as <-. apply (effect_finish st ws _ c); side. }
    case_decide; [|injection Hres as <-; apply (effect_finish st ws _ c); side].
    destruct j as [join_key|]; [|destruct w as [watch_key|]].
    + unfold join in Hres. destruct (JOIN st !! join_key) as [sid|].
      * by eapply (effect_attach st st' ws _ c Join).
      * injection Hres as <-. by apply (effect_not_found st ws _ c).
    + unfold watch in Hres. destruct (WATCH st !! watch_key) as [sid|].
      * by eapply (effect_attach st st' ws _ c Watch).
      * injection Hres as <-. by apply (effect_not_found st ws _ c).
    + injection Hres as <-. by apply (effect_start st ws _ c).
  - apply (effect_finish st ws _ c); side.
  - apply (effect_finish st ws _ c); side.
  - apply (effect_finish st ws _ c); side.
  - apply (effect_finish st ws _ c); side.
  - apply (effect_finish st ws _ c); side.
  - apply (effect_goto st st ws _ c); side.
  - apply (effect_leave st st ws _ c); side.
  - apply (effect_leave st st ws _ c); side.
  - apply (effect_replay st ws _ c); side.
  - apply (effect_leave st st ws _ c); side.
  - apply (effect_leave st st ws _ c); side.
  - by apply (effect_play st st' ws c fr sid).
  - apply (effect_leave st st ws _ c); side.
  - apply (effect_leave st st ws _ c); side.
  - apply (effect_goto st st ws _ c); side.
  - apply (effect_leave st st ws _ c); side.
  - apply (effect_leave st st ws _ c); side.
  - apply (effect_leave st st ws _ c); side.
  - apply (effect_leave st st ws _ c); side.
Qed.

Lemma step_Effect st st' a :
  wf_state st -> step a st = Some st' -> Effect st a st'.
Proof.
  intros Hwf Hstep. destruct a as [ws|ws|ws i]; simpl in Hstep.
  - destruct (conns st !! ws) eqn:Hc; [done|]. injection Hstep as <-.
    by apply E_connect.
  - destruct (conns st !! ws) as [c|] eqn:Hc; [|done]. injection Hstep as <-.
    by apply (E_lost st ws c).
  - by apply resume_Effect.
Qed.

End Transitions.

(** ** The invariant holds in every reachable state *)

Section Invariant.
Context `{Engine : RulesEngine}.

Implicit Types (st : state) (c : Connection) (s : Session) (ws sid : nat).

Lemma heap_rel_fwd f k (h h' : list Session) sid s :
  heap_rel f k h h' -> h !! sid = Some s ->
  exists s', h' !! sid = Some s' /\
    moves (s_game s') = k sid (moves (s_game s)) /\
    s_connected s' = f sid (s_connected s).
Proof.
  intros Hrel Hs. specialize (Hrel sid). rewrite Hs in Hrel.
  inversion Hrel as [s0 s' [Hm Hc] Heq Hs'|]; subst. by exists s'.
Qed.

Lemma heap_rel_bwd f k (h h' : list Session) sid s' :
  heap_rel f k h h' -> h' !! sid = Some s' ->
  exists s, h !! sid = Some s /\
    moves (s_game s') = k sid (moves (s_game s)) /\
    s_connected s' = f sid (s_connected s).
Proof.
  intros Hrel Hs'. specialize (Hrel sid). rewrite Hs' in Hrel.
  inversion Hrel as [s s0 [Hm Hc] Hs Heq|]; subst. by exists s.
Qed.

Lemma pc_session_frame p fr sid : pc_frame p = Some (fr, sid) -> pc_session p = Some sid.
Proof. unfold pc_session. by intros ->. Qed.

Lemma pc_session_same p p' : pc_frame p' = pc_frame p -> pc_session p' = pc_session p.
Proof. unfold pc_session. by intros ->. Qed.

(** One connection changes; connection sets change at most in that
    connection; move logs stay. *)
Lemma Inv_insert st st' ws c' f :
  Inv st ->
  conns st' = <[ws := c']> (conns st) ->
  heap_rel f keep (heap st) (heap st') ->
  (forall sid S w, w <> ws -> (w ∈ f sid S <-> w ∈ S)) ->
  pc_wf (c_pc c') ->
  (c_pc c' = AwaitInit -> c_sent c' = []) ->
  (c_open c' = true -> forall sid, pc_session (c_pc c') = Some sid ->
     exists s, heap st !! sid = Some s /\ ws ∈ f sid (s_connected s) /\
               delivered (c_pc c') (c_sent c') (moves (s_game s))) ->
  (c_open c' = true -> forall sid s, heap st !! sid = Some s ->
     ws ∈ f sid (s_connected s) -> pc_session (c_pc c') = Some sid) ->
  Inv st'.
Proof.
  intros [Hatt Hmem Hfresh Hwf] Hconns Hheap Hf Hwf' Hfresh' Hatt' Hmem'.
  split.
  - intros w cw sid Hcw Ho Hsid. rewrite Hconns in Hcw.
    destruct (decide (w = ws)) as [->|Hne].
    + rewrite lookup_insert_eq in Hcw. injection Hcw as <-.
      destruct (Hatt' Ho sid Hsid) as (s & Hs & Hin & Hd).
      destruct (heap_rel_fwd _ _ _ _ _ _ Hheap Hs) as (s' & Hs' & Hm & Hc).
      exists s'. rewrite Hm, Hc. done.
    + rewrite lookup_insert_ne in Hcw by done.
      destruct (Hatt w cw sid Hcw Ho Hsid) as (s & Hs & Hin & Hd).
      destruct (heap_rel_fwd _ _ _ _ _ _ Hheap Hs) as (s' & Hs' & Hm & Hc).
      exists s'. rewrite Hm, Hc. split; [done|]. split; [by apply Hf|done].
  - intros sid s' w Hs' Hin. rewrite Hconns.
    destruct (heap_rel_bwd _ _ _ _ _ _ Hheap Hs') as (s & Hs & Hm & Hc).
    rewrite Hc in Hin.
    destruct (decide (w = ws)) as [->|Hne].
    + exists c'. rewrite lookup_insert_eq. split; [done|]. intros Ho. by eapply Hmem'.
    + rewrite lookup_insert_ne by done. apply Hf in Hin; [|done]. by eapply Hmem.
  - intros w cw Hcw Hpc. rewrite Hconns in Hcw.
    destruct (decide (w = ws)) as [->|Hne].
    + rewrite lookup_insert_eq in Hcw. injection Hcw as <-. by apply Hfresh'.
    + rewrite lookup_insert_ne in Hcw by done. by eapply Hfresh.
  - intros w cw Hcw. rewrite Hconns in Hcw.
    destruct (decide (w = ws)) as [->|Hne].
    + rewrite lookup_insert_eq in Hcw. by injection Hcw as <-.
    + rewrite lookup_insert_ne in Hcw by done. by eapply Hwf.
Qed.

Lemma only_other sid (g : gset nat -> gset nat) (ws : nat) :
  (forall S w, w <> ws -> (w ∈ g S <-> w ∈ S)) ->
  forall sid' S w, w <> ws -> (w ∈ only sid g sid' S <-> w ∈ S).
Proof. intros Hg sid' S w Hne. unfold only. case_decide; [by apply Hg|done]. Qed.

Lemma Inv_closed st st' ws c c' f :
  Inv st ->
  conns st !! ws = Some c ->
  conns st' = <[ws := c']> (conns st) ->
  heap_rel f keep (heap st) (heap st') ->
  (forall sid S w, w <> ws -> (w ∈ f sid S <-> w ∈ S)) ->
  c_open c' = false -> pc_wf (c_pc c') -> c_pc c' <> AwaitInit \/ c' = {| c_pc := c_pc c; c_open := false; c_sent := c_sent c |} ->
  Inv st'.
Proof.
  intros HI Hc Hconns Hheap Hf Ho Hwf Hpc.
  eapply Inv_insert; try done.
  - intros Hawait. destruct Hpc as [?| ->]; [done|]. simpl in *.
    by eapply (inv_fresh _ HI).
  - by rewrite Ho.
  - by rewrite Ho.
Qed.

Lemma Inv_accept st st' sid s p column row es :
  Inv st ->
  heap st !! sid = Some s ->
  plays es = [] ->
  (forall w, conns st' !! w =
     (fun cw => if c_open cw && bool_decide (w ∈ s_connected s)
                then {| c_pc := c_pc cw; c_open := c_open cw;
                        c_sent := c_sent cw ++ PlayEvent p column row :: es |}
                else cw) <$> conns st !! w) ->
  heap_rel keep (only sid (fun l => l ++ [(p, column, row)])) (heap st) (heap st') ->
  Inv st'.
Proof.
  intros [Hatt Hmem Hfresh Hwf] Hs Hes Hconns Hheap.
  assert (Hinv : forall w cw', conns st' !! w = Some cw' ->
    exists cw, conns st !! w = Some cw /\ c_pc cw' = c_pc cw /\ c_open cw' = c_open cw /\
      ((c_open cw = true /\ w ∈ s_connected s /\
        c_sent cw' = c_sent cw ++ PlayEvent p column row :: es) \/
       ((c_open cw = false \/ w ∉ s_connected s) /\ cw' = cw))).
  { intros w cw' Hcw'. rewrite Hconns in Hcw'.
    destruct (conns st !! w) as [cw|]; [|done]. simpl in Hcw'. injection Hcw' as <-.
    exists cw. split; [done|].
    destruct (c_open cw) eqn:Ho; simpl; [|naive_solver].
    case_bool_decide; simpl; naive_solver. }
  split.
  - intros w cw' sid0 Hcw' Ho Hsid.
    destruct (Hinv w cw' Hcw') as (cw & Hcw & Hpc & Hopen & Hcase).
    rewrite Hpc in *. rewrite Hopen in Ho.
    destruct (Hatt w cw sid0 Hcw Ho Hsid) as (s0 & Hs0 & Hin & Hd).
    destruct (heap_rel_fwd _ _ _ _ _ _ Hheap Hs0) as (s0' & Hs0' & Hm & Hc).
    exists s0'. rewrite Hm, Hc. split; [done|]. split; [done|].
    unfold only. destruct Hcase as [(_ & Hw & ->)|(Hnot & ->)].
    + destruct (Hmem sid s w Hs Hw) as (cw0 & Hcw0 & Hsid').
      rewrite Hcw in Hcw0. injection Hcw0 as <-.
      rewrite (Hsid' Ho) in Hsid. injection Hsid as <-.
      rewrite decide_True by done.
      rewrite Hs in Hs0. injection Hs0 as <-. by apply delivered_broadcast.
    + case_decide as Heq; [|done]. subst sid0.
      rewrite Hs in Hs0. injection Hs0 as <-.
      destruct Hnot as [Hnot|Hnot]; [congruence|done].
  - intros sid0 s0' w Hs0' Hin.
    destruct (heap_rel_bwd _ _ _ _ _ _ Hheap Hs0') as (s0 & Hs0 & Hm & Hc).
    rewrite Hc in Hin. destruct (Hmem sid0 s0 w Hs0 Hin) as (cw & Hcw & Hsid).
    rewrite Hconns, Hcw. simpl. eexists. split; [done|].
    by destruct (c_open cw && bool_decide (w ∈ s_connected s)).
  - intros w cw' Hcw' Hawait.
    destruct (Hinv w cw' Hcw') as (cw & Hcw & Hpc & Hopen & Hcase).
    rewrite Hpc in Hawait.
    destruct Hcase as [(Ho & Hw & _)|(_ & ->)]; [|by eapply Hfresh].
    destruct (Hmem sid s w Hs Hw) as (cw0 & Hcw0 & Hsid).
    rewrite Hcw in Hcw0. injection Hcw0 as <-.
    specialize (Hsid Ho). by rewrite Hawait in Hsid.
  - intros w cw' Hcw'.
    destruct (Hinv w cw' Hcw') as (cw & Hcw & Hpc & _). rewrite Hpc. by eapply Hwf.
Qed.

Lemma Inv_start st st' ws c c' :
  Inv st ->
  conns st !! ws = Some c -> c_pc c = AwaitInit ->
  heap st' = heap st ++ [{| s_game := Connect4; s_connected := {[ws]} |}] ->
  conns st' = <[ws := c']> (conns st) ->
  (c_open c' = true ->
     c_open c = true /\
     exists join_key, c_pc c' = SendInit (length (heap st)) join_key /\
                      plays (c_sent c') = []) ->
  c_pc c' <> AwaitInit -> pc_wf (c_pc c') ->
  Inv st'.
Proof.
  intros HI Hc Hpc Hheap Hconns Hc' Hne Hwf'.
  pose proof HI as [Hatt Hmem Hfresh Hwf].
  assert (Hnew : heap st' !! length (heap st) =
                 Some {| s_game := Connect4; s_connected := {[ws]} |}).
  { rewrite Hheap. by apply list_lookup_middle. }
  assert (Hold : forall sid s, heap st !! sid = Some s -> heap st' !! sid = Some s).
  { intros sid s Hs. rewrite Hheap. by apply lookup_app_l_Some. }
  assert (Hback : forall sid s, heap st' !! sid = Some s ->
            heap st !! sid = Some s \/
            (sid = length (heap st) /\ s = {| s_game := Connect4; s_connected := {[ws]} |})).
  { intros sid s Hs. rewrite Hheap in Hs. apply lookup_app_Some in Hs as [Hs|[Hge Hs]]; [by left|].
    right. destruct (sid - length (heap st)) as [|n] eqn:Hn; simpl in Hs; [|done].
    injection Hs as <-. split; [lia|done]. }
  assert (Hnotin : forall sid s, heap st !! sid = Some s -> c_open c = true ->
            ws ∉ s_connected s).
  { intros sid s Hs Ho Hin. destruct (Hmem sid s ws Hs Hin) as (c0 & Hc0 & Hsid).
    rewrite Hc in Hc0. injection Hc0 as <-. specialize (Hsid Ho). by rewrite Hpc in Hsid. }
  split.
  - intros w cw sid Hcw Ho Hsid. rewrite Hconns in Hcw.
    destruct (decide (w = ws)) as [->|Hnw].
    + rewrite lookup_insert_eq in Hcw. injection Hcw as <-.
      destruct (Hc' Ho) as (_ & join_key & Hpc' & Hplays).
      rewrite Hpc' in Hsid. injection Hsid as <-.
      eexists. split; [exact Hnew|]. simpl. split; [set_solver|].
      rewrite Connect4_moves. apply delivered_empty; [by rewrite Hpc'|done].
    + rewrite lookup_insert_ne in Hcw by done.
      destruct (Hatt w cw sid Hcw Ho Hsid) as (s & Hs & Hin & Hd).
      exists s. split; [by apply Hold|done].
  - intros sid s w Hs Hin. rewrite Hconns.
    destruct (Hback sid s Hs) as [Hs0|[-> ->]].
    + destruct (decide (w = ws)) as [->|Hnw].
      * exists c'. rewrite lookup_insert_eq. split; [done|]. intros Ho.
        destruct (Hc' Ho) as (Hoc & _). by destruct (Hnotin sid s Hs0 Hoc).
      * rewrite lookup_insert_ne by done. by eapply Hmem.
    + simpl in Hin. apply elem_of_singleton in Hin as ->.
      exists c'. rewrite lookup_insert_eq. split; [done|]. intros Ho.
      destruct (Hc' Ho) as (_ & join_key & -> & _). done.
  - intros w cw Hcw Hawait. rewrite Hconns in Hcw.
    destruct (decide (w = ws)) as [->|Hnw].
    + rewrite lookup_insert_eq in Hcw. by injection Hcw as <-.
    + rewrite lookup_insert_ne in Hcw by done. by eapply Hfresh.
  - intros w cw Hcw. rewrite Hconns in Hcw.
    destruct (decide (w = ws)) as [->|Hnw].
    + rewrite lookup_insert_eq in Hcw. by injection Hcw as <-.
    + rewrite lookup_insert_ne in Hcw by done. by eapply Hwf.
Qed.

Lemma heap_eq_rel st st' : heap st' = heap st -> heap_rel keep keep (heap st) (heap st').
Proof. intros ->. apply heap_rel_refl. Qed.

Lemma plays_move_events p column row g' :
  move_events p column row g' =
  PlayEvent p column row :: match winner g' with Some _ => [WinEvent p] | None => [] end /\
  plays (match winner g' with Some _ => [WinEvent p] | None => [] end) = [].
Proof. split; [done|]. by destruct (winner g'). Qed.

Lemma Inv_Effect st a st' : Inv st -> Effect st a st' -> Inv st'.
Proof.
  intros HI HE. pose proof HI as [Hatt Hmem Hfresh Hwf].
  destruct HE as
    [ws st' Hnone Hconns Hheap _ _
    |ws c st' Hc Hconns Hheap _ _
    |ws i c c' st' Hc Hconns Hheap _ _ Ho Hfr Hne Hwf' Hd
    |ws i c raised st' Hc Hfr Hconns Hheap _ _
    |ws i c raised join_key sid st' Hc Hfr Hconns Hheap _ _
    |ws i c raised fr sid st' Hc Hfr Hst Hconns Hheap _ _
    |ws i c fr sid s column row g' st' Hc Hpc Hs Hgp Hconns Hheap _ _
    |ws i c fr sid s c' st' Hc Hpc Hs Hst Hconns Hheap _ _ Ho Hfr Hwf' Hd
    |ws i c sid st' Hc Hpc Ho Hconns Hheap _ _
    |ws i c c' join_key watch_key st' Hc Hpc Hheap Hconns _ Hcase].
  - (* a connection is accepted *)
    eapply (Inv_insert st st' ws _ keep); try done.
    + by apply heap_eq_rel.
    + intros _ sid s Hs Hin. destruct (Hmem sid s ws Hs Hin) as (c & Hc & _). congruence.
  - (* a transport is lost *)
    eapply (Inv_closed st st' ws c _ keep); try done.
    + by apply heap_eq_rel.
    + exact (Hwf ws c Hc).
    + by right.
  - (* the coroutine moves on *)
    eapply (Inv_insert st st' ws c' keep); try done.
    + intros Ho' sid Hsid. rewrite Ho in Ho'.
      rewrite (pc_session_same _ _ Hfr) in Hsid.
      destruct (Hatt ws c sid Hc Ho' Hsid) as (s & Hs & Hin & Hdel).
      exists s. split; [done|]. split; [done|]. by apply Hd.
    + intros Ho' sid s Hs Hin. rewrite Ho in Ho'.
      rewrite (pc_session_same _ _ Hfr).
      destruct (Hmem sid s ws Hs Hin) as (c0 & Hc0 & Hsid).
      rewrite Hc in Hc0. injection Hc0 as <-. by apply Hsid.
  - eapply (Inv_closed st st' ws c _ keep); try done.
    + by apply heap_eq_rel.
    + by left.
  - eapply (Inv_closed st st' ws c _ keep); try done. by left.
  - eapply (Inv_closed st st' ws c _ (only sid (fun S => S ∖ {[ws]}))); try done.
    + apply only_other. set_solver.
    + by left.
  - (* an accepted move *)
    destruct (plays_move_events (seat fr) column row g') as [Hev Hes].
    eapply (Inv_accept st st' sid s (seat fr) column row); [done|done|exact Hes| |done].
    intros w. rewrite Hconns. by rewrite Hev.
  - (* attach *)
    assert (Hsid : pc_session (c_pc c') = Some sid) by by eapply pc_session_frame.
    assert (Hadd : forall sid' (S : gset nat) w, w <> ws ->
              (w ∈ only sid (fun S => {[ws]} ∪ S) sid' S <-> w ∈ S)).
    { apply only_other. set_solver. }
    eapply (Inv_insert st st' ws c' (only sid (fun S => {[ws]} ∪ S))); try done.
    + intros Hawait. by rewrite Hawait in Hfr.
    + intros Ho' sid0 Hsid0. rewrite Hsid in Hsid0. injection Hsid0 as <-.
      exists s. split; [done|]. split.
      * unfold only. rewrite decide_True by done. set_solver.
      * apply Hd. by eapply Hfresh.
    + intros Ho' sid0 s0 Hs0 Hin. rewrite Hsid. f_equal.
      unfold only in Hin. case_decide as Heq; [done|]. exfalso.
      destruct (Hmem sid0 s0 ws Hs0 Hin) as (c0 & Hc0 & Hsid0).
      rewrite Hc in Hc0. injection Hc0 as <-.
      rewrite Ho in Ho'. specialize (Hsid0 Ho'). by rewrite Hpc in Hsid0.
  - (* attach on a closed connection *)
    destruct Hconns as [Hconns|Hconns];
      (eapply (Inv_closed st st' ws c _ (only sid (fun S => ({[ws]} ∪ S) ∖ {[ws]})));
       try done; [apply only_other; set_solver|by left]).
  - (* start *)
    eapply (Inv_start st st' ws c c'); try done.
    + intros Ho'. destruct Hcase as [(Ho & -> & _)|(_ & -> & _)]; [|done].
      split; [done|]. eexists. split; [done|]. simpl.
      rewrite plays_app. rewrite (Hfresh ws c Hc Hpc). done.
    + by destruct Hcase as [(_ & -> & _)|(_ & -> & _)].
    + by destruct Hcase as [(_ & -> & _)|(_ & -> & _)].
Qed.

Lemma Inv_wf st : Inv st -> wf_state st.
Proof. intros HI ws c Hc. by eapply (inv_wf _ HI). Qed.

Lemma Inv_step st a st' : Inv st -> step a st = Some st' -> Inv st'.
Proof.
  intros HI Hstep. eapply Inv_Effect; [done|].
  apply step_Effect; [by apply Inv_wf|done].
Qed.

Lemma Inv_run acts : forall st st', Inv st -> run acts st = Some st' -> Inv st'.
Proof.
  induction acts as [|a acts IH]; intros st st' HI Hrun; simpl in Hrun.
  { by injection Hrun as <-. }
  destruct (step a st) as [st1|] eqn:Hstep; [|done]. simpl in Hrun.
  eapply IH; [|done]. by eapply Inv_step.
Qed.

Lemma Inv_boot rnd : Inv (boot rnd).
Proof. split; intros *; simpl; by rewrite ?lookup_empty, ?lookup_nil. Qed.

Lemma reachable_Inv st : reachable st -> Inv st.
Proof. intros (rnd & acts & Hrun). eapply Inv_run; [apply Inv_boot|done]. Qed.

End Invariant.

(** ** Delivery of the moves, and what is left behind at the end *)

Section Delivery.
Context `{Engine : RulesEngine}.

Implicit Types (st : state) (c : Connection) (s : Session) (ws sid : nat).

Lemma first_player_pending p : pc_wf p -> first_player p = true -> pending p = [].
Proof. by destruct p as [| | |[]| | | |]. Qed.

(** C2 (amended): in every reachable state, an open connection attached to
    a game has been sent every move of the log exactly once, apart from the
    moves its replay has still to send: the play events it was sent are an
    interleaving of the replayed part of its snapshot and of the moves
    broadcast since it attached, each in the order of the log.  Once the
    replay is over they are a permutation of the log, and for the first
    player they are the log itself.  The order of the log is not kept
    between a replayed move and a move broadcast during the replay. *)
Theorem plays_delivered_once st ws c sid s :
  reachable st ->
  conns st !! ws = Some c -> c_open c = true ->
  pc_session (c_pc c) = Some sid ->
  heap st !! sid = Some s ->
  ws ∈ s_connected s /\
  (exists replayed live,
      moves (s_game s) = replayed ++ pending (c_pc c) ++ live /\
      Merge replayed live (plays (c_sent c))) /\
  (pending (c_pc c) = [] -> plays (c_sent c) ≡ₚ moves (s_game s)) /\
  (first_player (c_pc c) = true -> plays (c_sent c) = moves (s_game s)).
Proof.
  intros Hreach Hc Ho Hsid Hs.
  destruct (inv_attached _ (reachable_Inv _ Hreach) ws c sid Hc Ho Hsid)
    as (s0 & Hs0 & Hin & replayed & live & Hlog & Hm & Hfirst).
  rewrite Hs in Hs0. injection Hs0 as <-.
  split; [done|]. split; [by exists replayed, live|]. split.
  - intros Hpend. rewrite Hlog, Hpend. simpl. by apply Merge_Permutation.
  - intros Hfp. rewrite Hlog. rewrite (Hfirst Hfp) in Hm |- *.
    rewrite (first_player_pending (c_pc c));
      [|exact (inv_wf _ (reachable_Inv _ Hreach) ws c Hc)|done].
    simpl. by apply Merge_nil_left.
Qed.

(** *** The end of a handler *)

Lemma connected_keep st st' :
  heap_rel keep keep (heap st) (heap st') ->
  forall sid, connected st' sid = connected st sid.
Proof.
  intros Hh sid. unfold connected. specialize (Hh sid).
  inversion Hh as [s s' [_ Hc]|]; [done|done].
Qed.

Lemma resume_done st st' ws i c fr sid raised :
  wf_state st ->
  conns st !! ws = Some c -> pc_frame (c_pc c) = Some (fr, sid) ->
  resume ws i st = Some st' ->
  c_pc <$> conns st' !! ws = Some (Done raised) ->
  WATCH st' = WATCH st /\
  match fr with
  | Start join_key =>
      JOIN st' = delete join_key (JOIN st) /\ heap_rel keep keep (heap st) (heap st')
  | _ =>
      JOIN st' = JOIN st /\
      heap_rel (only sid (fun S => S ∖ {[ws]})) keep (heap st) (heap st')
  end.
Proof.
  intros Hwf Hc Hfr Hres Hdone.
  pose proof (resume_Effect st st' ws i Hwf Hres) as HE.
  inversion HE as
    [| |? ? c0 c' ? Hc0 Hconns Hheap HJ HW Ho Hfr' Hne Hwf' Hd
    |? ? c0 ? ? Hc0 Hfr0
    |? ? c0 ? join_key sid0 ? Hc0 Hfr0 Hconns Hheap HJ HW
    |? ? c0 ? fr0 sid0 ? Hc0 Hfr0 Hst Hconns Hheap HJ HW
    |? ? c0 fr0 sid0 s column row g' ? Hc0 Hpc Hs Hgp Hconns
    |? ? c0 ? ? ? ? ? Hc0 Hpc
    |? ? c0 ? ? Hc0 Hpc
    |? ? c0 ? ? ? ? Hc0 Hpc]; subst;
    rewrite Hc in Hc0; injection Hc0 as <-.
  - rewrite Hconns, lookup_insert_eq in Hdone. simpl in Hdone.
    injection Hdone as Hdone. rewrite Hdone in Hfr'. by rewrite Hfr in Hfr'.
  - by rewrite Hfr in Hfr0.
  - rewrite Hfr in Hfr0. by injection Hfr0 as -> ->.
  - rewrite Hfr in Hfr0. injection Hfr0 as -> ->. by destruct fr0.
  - rewrite Hconns, Hc in Hdone. simpl in Hdone.
    destruct (c_open c && bool_decide (ws ∈ s_connected s)); simpl in Hdone; congruence.
  - by rewrite Hpc in Hfr.
  - by rewrite Hpc in Hfr.
  - by rewrite Hpc in Hfr.
Qed.

Lemma connected_rel f k st st' sid w :
  heap_rel f k (heap st) (heap st') ->
  w ∈ connected st sid ->
  (forall S, w ∈ S -> w ∈ f sid S) ->
  w ∈ connected st' sid.
Proof.
  intros Hh Hin Hf. unfold connected in *. specialize (Hh sid).
  inversion Hh as [s s' [_ Hc] Hs Hs'|Hs Hs']; rewrite <- ?Hs, <- ?Hs' in *.
  - rewrite Hc. by apply Hf.
  - done.
Qed.

Lemma stays_step st a st' ws sid :
  wf_state st -> stays ws sid st -> step a st = Some st' -> stays ws sid st'.
Proof.
  intros Hwf (Hin & c & Hc & Hpc) Hstep.
  assert (Hkeep : forall st1, heap_rel keep keep (heap st) (heap st1) ->
            ws ∈ connected st1 sid).
  { intros st1 Hh. by eapply (connected_rel keep keep st st1). }
  assert (Hsame : forall st1, heap st1 = heap st -> ws ∈ connected st1 sid).
  { intros st1 Hh. unfold connected. by rewrite Hh. }
  assert (Hother : forall w cw st1, w <> ws ->
            conns st1 = <[w := cw]> (conns st) -> conns st1 !! ws = Some c).
  { intros w cw st1 Hne ->. by rewrite lookup_insert_ne. }
  assert (Hnot : forall i raised, a = Resume ws i -> c_pc c = Done raised -> False).
  { intros i raised -> Hdone. simpl in Hstep. unfold resume in Hstep.
    rewrite Hc in Hstep. simpl in Hstep. rewrite Hdone in Hstep. by destruct i. }
  pose proof (step_Effect st st' a Hwf Hstep) as HE.
  destruct HE as
    [w st' Hnone Hconns Hheap _ _
    |w c0 st' Hc0 Hconns Hheap _ _
    |w i c0 c' st' Hc0 Hconns Hheap _ _ Ho Hfr Hne Hwf' Hd
    |w i c0 raised st' Hc0 Hfr Hconns Hheap _ _
    |w i c0 raised join_key sid0 st' Hc0 Hfr Hconns Hheap _ _
    |w i c0 raised fr sid0 st' Hc0 Hfr Hst Hconns Hheap _ _
    |w i c0 fr sid0 s column row g' st' Hc0 Hpc0 Hs Hgp Hconns Hheap _ _
    |w i c0 fr sid0 s c' st' Hc0 Hpc0 Hs Hst Hconns Hheap _ _ Ho Hfr Hwf' Hd
    |w i c0 sid0 st' Hc0 Hpc0 Ho Hconns Hheap _ _
    |w i c0 c' join_key watch_key st' Hc0 Hpc0 Hheap Hconns _ Hcase].
  - split; [by apply Hsame|]. exists c. split; [|done].
    eapply Hother; [|done]. congruence.
  - split; [by apply Hsame|]. destruct (decide (w = ws)) as [->|Hne].
    + rewrite Hc in Hc0. injection Hc0 as <-.
      eexists. rewrite Hconns, lookup_insert_eq. done.
    + exists c. split; [by eapply Hother|done].
  - split; [by apply Hkeep|]. destruct (decide (w = ws)) as [->|Hnw].
    + rewrite Hc in Hc0. injection Hc0 as <-.
      exists c'. rewrite Hconns, lookup_insert_eq. split; [done|].
      destruct Hpc as [(jk & Hpc)|(raised & Hpc)].
      * left. exists jk. by rewrite Hfr.
      * exfalso. by eapply Hnot.
    + exists c. split; [by eapply Hother|done].
  - split; [by apply Hsame|]. destruct (decide (w = ws)) as [->|Hnw].
    + eexists. rewrite Hconns, lookup_insert_eq. split; [done|]. right. by eexists.
    + exists c. split; [by eapply Hother|done].
  - split; [by apply Hkeep|]. destruct (decide (w = ws)) as [->|Hnw].
    + eexists. rewrite Hconns, lookup_insert_eq. split; [done|]. right. by eexists.
    + exists c. split; [by eapply Hother|done].
  - destruct (decide (w = ws)) as [->|Hnw].
    + exfalso. rewrite Hc in Hc0. injection Hc0 as <-.
      destruct Hpc as [(jk & Hpc)|(r & Hpc)]; rewrite Hpc in Hfr; [|done].
      injection Hfr as <- <-. done.
    + split.
      * eapply (connected_rel _ _ st st'); [done..|].
        intros S HS. unfold only. case_decide; [set_solver|done].
      * exists c. split; [by eapply Hother|done].
  - split.
    + eapply (connected_rel _ _ st st'); [done..|]. done.
    + rewrite Hconns, Hc. simpl. eexists. split; [done|].
      destruct (c_open c && bool_decide (ws ∈ s_connected s)); done.
  - assert (Hnw : w <> ws).
    { intros ->. rewrite Hc in Hc0. injection Hc0 as <-.
      destruct Hpc as [(jk & Hpc)|(r & Hpc)]; by rewrite Hpc0 in Hpc. }
    split.
    + eapply (connected_rel _ _ st st'); [done..|].
      intros S HS. unfold only. case_decide; [set_solver|done].
    + exists c. split; [by eapply Hother|done].
  - assert (Hnw : w <> ws).
    { intros ->. rewrite Hc in Hc0. injection Hc0 as <-.
      destruct Hpc as [(jk & Hpc)|(r & Hpc)]; by rewrite Hpc0 in Hpc. }
    split.
    + eapply (connected_rel _ _ st st'); [done..|].
      intros S HS. unfold only. case_decide; [set_solver|done].
    + exists c. destruct Hconns as [Hconns|Hconns]; (split; [by eapply Hother|done]).
  - assert (Hnw : w <> ws).
    { intros ->. rewrite Hc in Hc0. injection Hc0 as <-.
      destruct Hpc as [(jk & Hpc)|(r & Hpc)]; by rewrite Hpc0 in Hpc. }
    split.
    + unfold connected in *. rewrite Hheap.
      destruct (heap st !! sid) as [s|] eqn:Hs; [|done].
      by rewrite (lookup_app_l_Some _ _ _ _ Hs).
    + exists c. split; [by eapply Hother|done].
Qed.

Lemma stays_run acts : forall st st' ws sid,
  Inv st -> stays ws sid st -> run acts st = Some st' -> stays ws sid st'.
Proof.
  induction acts as [|a acts IH]; intros st st' ws sid HI Hst Hrun; simpl in Hrun.
  { by injection Hrun as <-. }
  destruct (step a st) as [st1|] eqn:Hstep; [|done]. simpl in Hrun.
  eapply (IH st1); [by eapply Inv_step| |done].
  eapply stays_step; [by apply Inv_wf|done..].
Qed.

(** C10: when the first player's handler ends, the only registry entry it
    removes is [JOIN[join_key]]: [WATCH] and every connection set are as
    before, so the first player's connection is still in the game's set,
    and it stays there in every later state, where broadcasts go on
    iterating over it.  A second player or a spectator of the game, however
    its handler ends, is removed from the set. *)
Theorem first_player_cleanup st ws c join_key sid :
  reachable st ->
  conns st !! ws = Some c ->
  pc_frame (c_pc c) = Some (Start join_key, sid) ->
  ws ∈ connected st sid ->
  (forall i st' raised,
      resume ws i st = Some st' ->
      c_pc <$> conns st' !! ws = Some (Done raised) ->
      JOIN st' = delete join_key (JOIN st) /\ WATCH st' = WATCH st /\
      forall sid', connected st' sid' = connected st sid') /\
  (forall acts st', run acts st = Some st' -> ws ∈ connected st' sid) /\
  (forall w cw fr i st' raised,
      conns st !! w = Some cw ->
      pc_frame (c_pc cw) = Some (fr, sid) -> is_start fr = false ->
      resume w i st = Some st' ->
      c_pc <$> conns st' !! w = Some (Done raised) ->
      connected st' sid = connected st sid ∖ {[w]}).
Proof.
  intros Hreach Hc Hfr Hin.
  pose proof (reachable_Inv _ Hreach) as HI.
  pose proof (Inv_wf _ HI) as Hwf.
  split; [|split].
  - intros i st' raised Hres Hdone.
    destruct (resume_done st st' ws i c _ sid raised Hwf Hc Hfr Hres Hdone)
      as (HW & HJ & Hh).
    split; [done|]. split; [done|]. by apply connected_keep.
  - intros acts st' Hrun.
    apply (stays_run acts st st' ws sid HI); [|done].
    split; [done|]. exists c. split; [done|]. left. by exists join_key.
  - intros w cw fr i st' raised Hcw Hfrw Hst Hres Hdone.
    destruct (resume_done st st' w i cw fr sid raised Hwf Hcw Hfrw Hres Hdone)
      as (_ & Hrest).
    assert (Hh : heap_rel (only sid (fun S => S ∖ {[w]})) keep (heap st) (heap st')).
    { destruct fr; [done|apply Hrest..]. }
    unfold connected. specialize (Hh sid).
    inversion Hh as [s s' [_ Hcs]|]; simpl.
    + rewrite Hcs. unfold only. by rewrite decide_True.
    + set_solver.
Qed.

End Delivery.

(** ** The scenarios, evaluated *)

Section Evaluated.
Import Scenario.

Local Open Scope Z_scope.

Lemma after_reachable acts :
  run acts (boot rnd) <> None -> reachable (after acts).
Proof.
  intros Hrun. exists rnd, acts. unfold after. by destruct (run acts (boot rnd)).
Defined.

(** C1, at the input where the code departs from it: A starts a game and
    gets the tokens J1 and W1, then A's connection is lost and its handler
    ends.  [JOIN] no longer has J1, but [WATCH] still has W1 for the game,
    and a client that now presents W1 is attached to the game as a
    spectator and is sent no "Game not found." *)
Theorem watch_token_survives_first_player :
  sent_to 1 (after first_player_gone) = Some [InitEvent J1 W1] /\
  pc_of 1 (after first_player_gone) = Some (Done false) /\
  JOIN (after first_player_gone) !! J1 = None /\
  WATCH (after first_player_gone) !! W1 = Some 0%nat /\
  pc_of 2 (after watch_after_first_player_gone) = Some (WaitClosed 0) /\
  sent_to 2 (after watch_after_first_player_gone) = Some [] /\
  members_of 0 (after watch_after_first_player_gone) = [2; 1]%nat.
Proof. by vm_compute. Qed.

(** C2 as stated fails: the spectator C attaches after two moves and before
    the third, stays attached, and is sent the third move before the
    second. *)
Lemma replay_reorders :
  pc_of 3 (after move_during_replay) = Some (WaitClosed 0) /\
  open_of 3 (after move_during_replay) = Some true /\
  (3%nat ∈ members_of 0 (after (two_moves ++ [Connect 3; Resume 3 (Recv (init_watch W1))])) /\
   log_of 0 (after (two_moves ++ [Connect 3; Resume 3 (Recv (init_watch W1))])) =
     Some [(PLAYER1, 3, 0); (PLAYER2, 3, 1)]) /\
  log_of 0 (after move_during_replay) =
    Some [(PLAYER1, 3, 0); (PLAYER2, 3, 1); (PLAYER1, 0, 0)] /\
  plays <$> sent_to 3 (after move_during_replay) =
    Some [(PLAYER1, 3, 0); (PLAYER1, 0, 0); (PLAYER2, 3, 1)] /\
  plays <$> sent_to 3 (after move_during_replay) <> log_of 0 (after move_during_replay).
Proof.
  split_and!; try (by vm_compute).
  vm_compute. set_solver.
Qed.

(** The reordered delivery is still an exactly-once delivery. *)
Lemma plays_delivered_once_witness :
  plays (c_sent (conn 3 (after move_during_replay))) ≡ₚ
  moves (s_game (session 0 (after move_during_replay))).
Proof.
  eapply (plays_delivered_once (after move_during_replay) 3
            (conn 3 (after move_during_replay)) 0 (session 0 (after move_during_replay))).
  - apply after_reachable. by vm_compute.
  - by vm_compute.
  - by vm_compute.
  - by vm_compute.
  - by vm_compute.
  - by vm_compute.
Defined.

(** A plays twice in a row: the second move is out of turn. *)
Lemma illegal_move_reported_witness :
  exists st1 st2,
    resume 1 (Recv (play_column 3)) (after (started ++ [Resume 1 (Recv (play_column 3))]))
      = Some st1 /\
    resume 1 Drained st1 = Some st2 /\
    sent_to 1 st1 =
      Some [InitEvent J1 W1; PlayEvent PLAYER1 3 0; ErrorEvent "It isn't your turn."] /\
    log_of 0 st1 = Some [(PLAYER1, 3, 0)] /\
    pc_of 1 st2 = Some (PlayRecv (Start J1) 0).
Proof.
  set (st := after (started ++ [Resume 1 (Recv (play_column 3))])).
  destruct (illegal_move_reported st 1 (conn 1 st) (Start J1) 0 (session 0 st)
              None None 3 "It isn't your turn." (s_game (session 0 st)))
    as (st1 & st2 & H1 & H2 & Hc1 & Hc2 & Hh & Hm & _);
    [by vm_compute..|].
  exists st1, st2. split; [exact H1|]. split; [exact H2|].
  unfold sent_to, log_of, pc_of. rewrite Hc1, Hc2, Hh, !lookup_insert_eq.
  by vm_compute.
Defined.

(** A plays column 3 at the start of the game. *)
Lemma accepted_move_broadcast_witness :
  exists st1,
    resume 1 (Recv (play_column 3)) (after started) = Some st1 /\
    sent_to 1 st1 = Some [InitEvent J1 W1; PlayEvent PLAYER1 3 0] /\
    log_of 0 st1 = Some [(PLAYER1, 3, 0)].
Proof.
  set (st := after started).
  destruct (accepted_move_broadcast st 1 (conn 1 st) (Start J1) 0 (session 0 st)
              None None 3 0 (game_play (s_game (session 0 st)) PLAYER1 3).2)
    as (st1 & H1 & Hc1 & _ & Hh & Hm & _);
    [by vm_compute..|].
  exists st1. split; [exact H1|].
  unfold sent_to, log_of. erewrite Hc1 by (by vm_compute). rewrite Hh.
  by vm_compute.
Defined.

(** A client opens with a watch token nobody has. *)
Lemma unknown_token_reported_witness :
  exists st1 st2,
    resume 1 (Recv (init_watch "nobody")) (after [Connect 1]) = Some st1 /\
    resume 1 Drained st1 = Some st2 /\
    sent_to 1 st2 = Some [ErrorEvent "Game not found."] /\
    pc_of 1 st2 = Some (Done false).
Proof.
  destruct (unknown_token_reported (after [Connect 1]) 1 (conn 1 (after [Connect 1]))
              (init_watch "nobody") "nobody")
    as (st1 & st2 & H1 & H2 & _ & Hc2 & _);
    [by vm_compute..|right; exists None; by vm_compute|].
  exists st1, st2. split; [exact H1|]. split; [exact H2|].
  unfold sent_to, pc_of. rewrite Hc2, !lookup_insert_eq. by vm_compute.
Defined.


(** The first connection starts a game. *)
Lemma start_mints_tokens_witness :
  exists st1,
    resume 1 (Recv init_start) (after [Connect 1]) = Some st1 /\
    JOIN st1 !! J1 = Some 0%nat /\ WATCH st1 !! W1 = Some 0%nat /\
    sent_to 1 st1 = Some [InitEvent J1 W1].
Proof.
  destruct (start_mints_tokens (after [Connect 1]) 1 (conn 1 (after [Connect 1])) None)
    as (st1 & H1 & HJ & HW & _ & _ & Hc & _);
    [by vm_compute..|].
  exists st1. split; [exact H1|].
  unfold sent_to. rewrite HJ, HW, Hc, !lookup_insert_eq. by vm_compute.
Defined.

(** A's first message in the game is not tagged "play". *)
Lemma protocol_violation_fatal_witness :
  exists st1,
    resume 1 (Recv init_start) (after started) = Some st1 /\
    pc_of 1 st1 = Some (Done true) /\ open_of 1 st1 = Some false /\
    JOIN st1 !! J1 = None.
Proof.
  destruct (protocol_violation_fatal (after started) 1 (conn 1 (after started)) init_start)
    as [_ Hplay]; [by vm_compute|].
  destruct (Hplay (Start J1) 0%nat) as (st1 & H1 & Hc & HJ & _);
    [by vm_compute|left; by vm_compute|].
  exists st1. split; [exact H1|].
  unfold pc_of, open_of. rewrite Hc, HJ, !lookup_insert_eq. by vm_compute.
Defined.

(** Three clients join A's game with the same token. *)
Lemma second_players_unbounded_witness :
  exists st',
    run (flat_map (joins J1 0) [2; 3; 4]%nat) (after started) = Some st' /\
    pc_of 2 st' = Some (PlayRecv Join 0) /\
    pc_of 3 st' = Some (PlayRecv Join 0) /\
    pc_of 4 st' = Some (PlayRecv Join 0).
Proof.
  destruct (second_players_unbounded (after started) J1 0 (session 0 (after started))
              [2; 3; 4]%nat)
    as (st' & s' & H1 & _ & _ & _ & Hin & _);
    [by vm_compute|by vm_compute| | |].
  { apply (bool_decide_unpack _). by vm_compute. }
  { intros ws Hws. repeat (apply elem_of_cons in Hws as [->|Hws]; [by vm_compute|]).
    by apply elem_of_nil in Hws. }
  assert (H2 := Hin 2%nat). assert (H3 := Hin 3%nat). assert (H4 := Hin 4%nat).
  exists st'. split; [exact H1|]. unfold pc_of.
  destruct H2 as [_ ->]; [set_solver|]. destruct H3 as [_ ->]; [set_solver|].
  destruct H4 as [_ ->]; [set_solver|]. done.
Defined.

(** A's handler ends in the game it started. *)
Lemma first_player_cleanup_witness :
  exists st', run [Lost 1; Resume 1 (Closed true)] (after started) = Some st' /\
    1%nat ∈ connected st' 0.
Proof.
  destruct (first_player_cleanup (after started) 1 (conn 1 (after started)) J1 0)
    as (_ & Hstay & _);
    [apply after_reachable; by vm_compute|by vm_compute|by vm_compute| |].
  { vm_compute. set_solver. }
  destruct (run [Lost 1; Resume 1 (Closed true)] (after started)) as [st'|] eqn:Hrun.
  - exists st'. split; [done|]. by eapply Hstay.
  - by vm_compute in Hrun.
Defined.

End Evaluated.

(** ** Properties of the whole server *)

Section Whole.
Context `{Engine : RulesEngine}.

Implicit Types (st : state) (c : Connection) (s : Session) (ws sid : nat).

Lemma heap_rel_length f k (h h' : list Session) : heap_rel f k h h' -> length h = length h'.
Proof.
  intros Hrel.
  assert (Hiff : forall i, i < length h <-> i < length h').
  { intros i. rewrite <- !lookup_lt_is_Some. specialize (Hrel i).
    inversion Hrel; split; intros [? ?]; by eauto || congruence. }
  destruct (Hiff (length h)) as [_ H1]. destruct (Hiff (length h')) as [H2 _]. lia.
Qed.

Lemma Effect_length st a st' :
  Effect st a st' -> length (heap st) <= length (heap st').
Proof.
  destruct 1; repeat match goal with
    | H : heap _ = _ |- _ => rewrite H
    | H : heap_rel _ _ _ _ |- _ => apply heap_rel_length in H
    end; rewrite ?length_app; simpl; lia.
Qed.

(** *** The move logs *)

Lemma log_step st a st' sid s :
  Effect st a st' -> heap st !! sid = Some s ->
  exists s', heap st' !! sid = Some s' /\
    (moves (s_game s') = moves (s_game s) \/
     exists ws i c fr column row g',
       a = Resume ws i /\ conns st !! ws = Some c /\ c_pc c = PlayRecv fr sid /\
       game_play (s_game s) (seat fr) column = (Row row, g') /\
       moves (s_game s') = moves (s_game s) ++ [(seat fr, column, row)]).
Proof.
  intros HE Hs.
  assert (Hkeep : forall f, heap_rel f keep (heap st) (heap st') ->
            exists s', heap st' !! sid = Some s' /\ moves (s_game s') = moves (s_game s)).
  { intros f Hh. destruct (heap_rel_fwd _ _ _ _ _ _ Hh Hs) as (s' & Hs' & Hm & _). eauto. }
  assert (Hsame : heap st' = heap st ->
            exists s', heap st' !! sid = Some s' /\ moves (s_game s') = moves (s_game s)).
  { intros ->. eauto. }
  destruct HE as
    [ws st' Hnone Hconns Hheap _ _
    |ws c st' Hc Hconns Hheap _ _
    |ws i c c' st' Hc Hconns Hheap _ _ Ho Hfr Hne Hwf' Hd
    |ws i c raised st' Hc Hfr Hconns Hheap _ _
    |ws i c raised join_key sid0 st' Hc Hfr Hconns Hheap _ _
    |ws i c raised fr sid0 st' Hc Hfr Hst Hconns Hheap _ _
    |ws i c fr sid0 s0 column row g' st' Hc Hpc Hs0 Hgp Hconns Hheap _ _
    |ws i c fr sid0 s0 c' st' Hc Hpc Hs0 Hst Hconns Hheap _ _ Ho Hfr Hwf' Hd
    |ws i c sid0 st' Hc Hpc Ho Hconns Hheap _ _
    |ws i c c' join_key watch_key st' Hc Hpc Hheap Hconns _ Hcase];
    try (destruct (Hsame Hheap) as (s' & Hs' & Hm); by eauto);
    try (destruct (Hkeep _ Hheap) as (s' & Hs' & Hm); by eauto).
  - destruct (heap_rel_fwd _ _ _ _ _ _ Hheap Hs) as (s' & Hs' & Hm & _).
    exists s'. split; [done|]. unfold only in Hm. case_decide as Heq; [|by left].
    subst sid0. rewrite Hs in Hs0. injection Hs0 as <-. right.
    by exists ws, i, c, fr, column, row, g'.
  - exists s. split; [|by left]. rewrite Hheap. by apply lookup_app_l_Some.
Qed.

Lemma log_run acts : forall st st' sid s,
  Inv st -> run acts st = Some st' -> heap st !! sid = Some s ->
  exists s', heap st' !! sid = Some s' /\ moves (s_game s) `prefix_of` moves (s_game s').
Proof.
  induction acts as [|a acts IH]; intros st st' sid s HI Hrun Hs; simpl in Hrun.
  { injection Hrun as <-. by exists s. }
  destruct (step a st) as [st1|] eqn:Hstep; [|done]. simpl in Hrun.
  pose proof (step_Effect st st1 a (Inv_wf _ HI) Hstep) as HE.
  destruct (log_step st a st1 sid s HE Hs) as (s1 & Hs1 & Hm).
  destruct (IH st1 st' sid s1 (Inv_step _ _ _ HI Hstep) Hrun Hs1) as (s' & Hs' & Hpre).
  exists s'. split; [done|]. etrans; [|exact Hpre].
  destruct Hm as [->|(? & ? & ? & ? & ? & ? & ? & _ & _ & _ & _ & ->)];
    [done|by apply prefix_app_r].
Qed.

(** X1: a game object is never freed or replaced and its move log only
    grows at the end: along every run from a reachable state, the log of a
    game is a prefix of its later log. *)
Theorem log_append_only st acts st' sid s :
  reachable st -> run acts st = Some st' -> heap st !! sid = Some s ->
  exists s', heap st' !! sid = Some s' /\
    moves (s_game s) `prefix_of` moves (s_game s').
Proof. intros Hreach. apply log_run. by apply reachable_Inv. Qed.

(** X2: the only transition that changes the move log of a game is the
    resumption of a coroutine that is in the receive loop of [play] for that
    game; it appends one move, with the seat of that coroutine and the row
    the rules engine returned.  A spectator, a connection that has not
    attached yet, or a player of another game never changes it. *)
Theorem only_players_move st a st' sid s s' :
  reachable st -> step a st = Some st' ->
  heap st !! sid = Some s -> heap st' !! sid = Some s' ->
  moves (s_game s') <> moves (s_game s) ->
  exists ws i c fr column row g',
    a = Resume ws i /\ conns st !! ws = Some c /\ c_pc c = PlayRecv fr sid /\
    game_play (s_game s) (seat fr) column = (Row row, g') /\
    moves (s_game s') = moves (s_game s) ++ [(seat fr, column, row)].
Proof.
  intros Hreach Hstep Hs Hs' Hne.
  pose proof (step_Effect st st' a (Inv_wf _ (reachable_Inv _ Hreach)) Hstep) as HE.
  destruct (log_step st a st' sid s HE Hs) as (s1 & Hs1 & Hm).
  rewrite Hs' in Hs1. injection Hs1 as <-.
  by destruct Hm as [Hm|Hm].
Qed.

(** *** Games do not interfere *)

(** X5: a transition of one coroutine changes another connection only by
    broadcasting an accepted move to it: the other connection is then open
    and a member of the game the moving coroutine plays in, and its own
    coroutine is attached to that game.  Connections of other games, closed
    connections and connections that have not attached are left as they
    are. *)
Theorem other_connections_untouched st w i st' ws c :
  reachable st -> resume w i st = Some st' ->
  w <> ws -> conns st !! ws = Some c -> conns st' !! ws <> Some c ->
  c_open c = true /\
  exists cw fr sid,
    conns st !! w = Some cw /\ c_pc cw = PlayRecv fr sid /\
    pc_session (c_pc c) = Some sid /\ ws ∈ connected st sid.
Proof.
  intros Hreach Hres Hne Hc Hchg.
  pose proof (reachable_Inv _ Hreach) as HI.
  pose proof (resume_Effect st st' w i (Inv_wf _ HI) Hres) as HE.
  inversion HE as
    [| |? ? c0 c' ? Hc0 Hconns
    |? ? c0 ? ? Hc0 Hfr0 Hconns
    |? ? c0 ? join_key sid0 ? Hc0 Hfr0 Hconns
    |? ? c0 ? fr0 sid0 ? Hc0 Hfr0 Hst Hconns
    |? ? c0 fr0 sid0 s column row g' ? Hc0 Hpc Hs Hgp Hconns
    |? ? c0 ? ? ? c' ? Hc0 Hpc Hs Hst Hconns
    |? ? c0 ? ? Hc0 Hpc Ho Hconns
    |? ? c0 c' ? ? ? Hc0 Hpc Hheap Hconns]; subst;
    try (exfalso; apply Hchg; rewrite Hconns; by rewrite lookup_insert_ne).
  - rewrite Hconns, Hc in Hchg. simpl in Hchg.
    destruct (c_open c) eqn:Ho; simpl in Hchg; [|done].
    case_bool_decide as Hin; simpl in Hchg; [|done].
    split; [done|]. exists c0, fr0, sid0.
    destruct (inv_member _ HI sid0 s ws Hs Hin) as (c1 & Hc1 & Hsid).
    rewrite Hc in Hc1. injection Hc1 as <-.
    split; [done|]. split; [done|]. split; [by apply Hsid|].
    unfold connected. by rewrite Hs.
  - exfalso. apply Hchg. destruct Hconns as [Hconns|Hconns];
      rewrite Hconns; by rewrite lookup_insert_ne.
Qed.

(** *** Membership of the connection sets *)

Lemma connected_lookup st sid s : heap st !! sid = Some s -> connected st sid = s_connected s.
Proof. unfold connected. by intros ->. Qed.

Lemma members_attached_Effect st a st' :
  members_attached st -> Effect st a st' -> members_attached st'.
Proof.
  intros HM HE.
  assert (Hold : forall f w cw fr sid,
            heap_rel f keep (heap st) (heap st') ->
            (forall sid' S x, x ∈ S -> x = actor a \/ x ∈ f sid' S) ->
            w <> actor a ->
            conns st !! w = Some cw -> pc_frame (c_pc cw) = Some (fr, sid) ->
            w ∈ connected st' sid).
  { intros f w cw fr sid Hh Hf Hw Hcw Hfr.
    apply (connected_rel f keep st st'); [done|by eapply HM|].
    intros S HS. by destruct (Hf sid S w HS). }
  assert (Hsame : forall w cw fr sid,
            heap st' = heap st ->
            conns st !! w = Some cw -> pc_frame (c_pc cw) = Some (fr, sid) ->
            w ∈ connected st' sid).
  { intros w cw fr sid Hh Hcw Hfr. unfold connected. rewrite Hh. by eapply HM. }
  assert (Honly : forall sid0 (g : gset nat -> gset nat) x,
            (forall S y, y ∈ S -> y = x \/ y ∈ g S) ->
            forall sid' S y, y ∈ S -> y = x \/ y ∈ only sid0 g sid' S).
  { intros sid0 g x Hg sid' S y Hy. unfold only. case_decide; [by apply Hg|by right]. }
  destruct HE as
    [ws st' Hnone Hconns Hheap _ _
    |ws c st' Hc Hconns Hheap _ _
    |ws i c c' st' Hc Hconns Hheap _ _ Ho Hfr Hne Hwf' Hd
    |ws i c raised st' Hc Hfr Hconns Hheap _ _
    |ws i c raised join_key sid0 st' Hc Hfr Hconns Hheap _ _
    |ws i c raised fr sid0 st' Hc Hfr Hst Hconns Hheap _ _
    |ws i c fr sid0 s0 column row g' st' Hc Hpc Hs0 Hgp Hconns Hheap _ _
    |ws i c fr sid0 s0 c' st' Hc Hpc Hs0 Hst Hconns Hheap _ _ Ho Hfr Hwf' Hd
    |ws i c sid0 st' Hc Hpc Ho Hconns Hheap _ _
    |ws i c c' join_key watch_key st' Hc Hpc Hheap Hconns _ Hcase];
    intros w cw frw sidw Hcw Hfrw; simpl in *.
  - rewrite Hconns in Hcw. destruct (decide (w = ws)) as [->|Hnw].
    + rewrite lookup_insert_eq in Hcw. by injection Hcw as <-.
    + rewrite lookup_insert_ne in Hcw by done. by eapply Hsame.
  - rewrite Hconns in Hcw. destruct (decide (w = ws)) as [->|Hnw].
    + rewrite lookup_insert_eq in Hcw. injection Hcw as <-. by eapply Hsame.
    + rewrite lookup_insert_ne in Hcw by done. by eapply Hsame.
  - rewrite Hconns in Hcw. destruct (decide (w = ws)) as [->|Hnw].
    + rewrite lookup_insert_eq in Hcw. injection Hcw as <-.
      rewrite Hfr in Hfrw. rewrite (connected_keep st st' Hheap). by eapply HM.
    + rewrite lookup_insert_ne in Hcw by done.
      rewrite (connected_keep st st' Hheap). by eapply HM.
  - rewrite Hconns in Hcw. destruct (decide (w = ws)) as [->|Hnw].
    + rewrite lookup_insert_eq in Hcw. by injection Hcw as <-.
    + rewrite lookup_insert_ne in Hcw by done. by eapply Hsame.
  - rewrite Hconns in Hcw. destruct (decide (w = ws)) as [->|Hnw].
    + rewrite lookup_insert_eq in Hcw. by injection Hcw as <-.
    + rewrite lookup_insert_ne in Hcw by done.
      rewrite (connected_keep st st' Hheap). by eapply HM.
  - rewrite Hconns in Hcw. destruct (decide (w = ws)) as [->|Hnw].
    + rewrite lookup_insert_eq in Hcw. by injection Hcw as <-.
    + rewrite lookup_insert_ne in Hcw by done.
      eapply Hold; [done| |done..]. apply Honly.
      intros S y Hy. destruct (decide (y = ws)); [by left|right; set_solver].
  - rewrite Hconns in Hcw. destruct (conns st !! w) as [cw0|] eqn:Hcw0; [|done].
    simpl in Hcw. injection Hcw as <-.
    assert (Hfr0 : pc_frame (c_pc cw0) = Some (frw, sidw)).
    { by destruct (c_open cw0 && bool_decide (w ∈ s_connected s0)). }
    apply (connected_rel _ _ st st' sidw w Hheap); [by eapply HM|done].
  - rewrite Hconns in Hcw. destruct (decide (w = ws)) as [->|Hnw].
    + rewrite lookup_insert_eq in Hcw. injection Hcw as <-.
      rewrite Hfr in Hfrw. injection Hfrw as <- <-.
      destruct (heap_rel_fwd _ _ _ _ _ _ Hheap Hs0) as (s' & Hs' & _ & Hcs).
      rewrite (connected_lookup _ _ _ Hs'), Hcs. unfold only.
      rewrite decide_True by done. set_solver.
    + rewrite lookup_insert_ne in Hcw by done.
      eapply Hold; [done| |done..]. apply Honly.
      intros S y Hy. right. set_solver.
  - assert (Hcw' : conns st' !! w = Some cw) by done.
    destruct (decide (w = ws)) as [->|Hnw].
    + destruct Hconns as [Hconns|Hconns]; rewrite Hconns, lookup_insert_eq in Hcw;
        by injection Hcw as <-.
    + assert (Hcw0 : conns st !! w = Some cw).
      { destruct Hconns as [Hconns|Hconns]; rewrite Hconns in Hcw;
          by rewrite lookup_insert_ne in Hcw. }
      eapply Hold; [done| |done..]. apply Honly.
      intros S y Hy. destruct (decide (y = ws)); [by left|right; set_solver].
  - rewrite Hconns in Hcw. destruct (decide (w = ws)) as [->|Hnw].
    + rewrite lookup_insert_eq in Hcw. injection Hcw as <-.
      destruct Hcase as [(_ & -> & _)|(_ & -> & _)]; [|done].
      simpl in Hfrw. injection Hfrw as <- <-.
      unfold connected. rewrite Hheap, list_lookup_middle by done. simpl. set_solver.
    + rewrite lookup_insert_ne in Hcw by done.
      pose proof (HM w cw frw sidw Hcw Hfrw) as Hin. unfold connected in *.
      destruct (heap st !! sidw) as [s|] eqn:Hs; [|set_solver].
      by rewrite Hheap, (lookup_app_l_Some _ _ _ _ Hs).
Qed.

Lemma members_attached_run acts : forall st st',
  Inv st -> members_attached st -> run acts st = Some st' -> members_attached st'.
Proof.
  induction acts as [|a acts IH]; intros st st' HI HM Hrun; simpl in Hrun.
  { by injection Hrun as <-. }
  destruct (step a st) as [st1|] eqn:Hstep; [|done]. simpl in Hrun.
  apply (IH st1); [by eapply Inv_step| |done].
  eapply members_attached_Effect; [done|]. apply step_Effect; [by apply Inv_wf|done].
Qed.

Lemma reachable_members_attached st : reachable st -> members_attached st.
Proof.
  intros (rnd & acts & Hrun).
  eapply members_attached_run; [apply Inv_boot| |done].
  intros ws c fr sid Hc. simpl in Hc. by rewrite lookup_empty in Hc.
Qed.

(** X6: in every reachable state a coroutine that is inside [start], [join]
    or [watch] and has not ended is a member of the connection set it holds,
    its connection being open or not; so [connected.remove(websocket)] in
    the finally-clauses of [join] and [watch] never raises KeyError. *)
Theorem attached_is_member st ws c fr sid :
  reachable st -> conns st !! ws = Some c -> pc_frame (c_pc c) = Some (fr, sid) ->
  ws ∈ connected st sid /\
  (is_start fr = false -> finally_raises fr sid ws st = false).
Proof.
  intros Hreach Hc Hfr.
  pose proof (reachable_members_attached st Hreach ws c fr sid Hc Hfr) as Hin.
  split; [done|]. intros Hst. unfold connected in Hin.
  destruct fr; [done| |]; simpl; destruct (heap st !! sid); try done;
    by rewrite bool_decide_false by (by intros ?).
Qed.

(** *** The registry *)

Lemma registry_ok_mono (reg : gmap string nat) (h h' : list Session) :
  length h <= length h' -> registry_ok reg h -> registry_ok reg h'.
Proof.
  intros Hlen [Hlt Hinj]. split; [|done].
  intros k sid Hk. specialize (Hlt k sid Hk). lia.
Qed.

Lemma registry_ok_delete (reg : gmap string nat) (h : list Session) k :
  registry_ok reg h -> registry_ok (delete k reg) h.
Proof.
  intros [Hlt Hinj]. split.
  - intros k' sid Hk'. apply lookup_delete_Some in Hk' as [_ Hk']. by eapply Hlt.
  - intros k1 k2 sid H1 H2.
    apply lookup_delete_Some in H1 as [_ H1]. apply lookup_delete_Some in H2 as [_ H2].
    by eapply Hinj.
Qed.

Lemma registry_ok_insert (reg : gmap string nat) (h : list Session) k x :
  registry_ok reg h -> registry_ok (<[k := length h]> reg) (h ++ [x]).
Proof.
  intros [Hlt Hinj]. split.
  - intros k' sid Hk'. rewrite length_app. simpl.
    apply lookup_insert_Some in Hk' as [[_ <-]|[_ Hk']]; [lia|].
    specialize (Hlt k' sid Hk'). lia.
  - intros k1 k2 sid H1 H2.
    apply lookup_insert_Some in H1 as [[<- <-]|[Hn1 H1]];
      apply lookup_insert_Some in H2 as [[<- Heq]|[Hn2 H2]]; try done.
    + specialize (Hlt k2 _ H2). lia.
    + specialize (Hlt k1 _ H1). lia.
    + by eapply Hinj.
Qed.

Lemma registry_Effect st a st' :
  Effect st a st' ->
  registry_ok (JOIN st) (heap st) -> registry_ok (WATCH st) (heap st) ->
  registry_ok (JOIN st') (heap st') /\ registry_ok (WATCH st') (heap st').
Proof.
  intros HE HJ HW. pose proof (Effect_length st a st' HE) as Hlen.
  destruct HE as
    [ws st' Hnone Hconns Hheap EJ EW
    |ws c st' Hc Hconns Hheap EJ EW
    |ws i c c' st' Hc Hconns Hheap EJ EW Ho Hfr Hne Hwf' Hd
    |ws i c raised st' Hc Hfr Hconns Hheap EJ EW
    |ws i c raised join_key sid0 st' Hc Hfr Hconns Hheap EJ EW
    |ws i c raised fr sid0 st' Hc Hfr Hst Hconns Hheap EJ EW
    |ws i c fr sid0 s0 column row g' st' Hc Hpc Hs0 Hgp Hconns Hheap EJ EW
    |ws i c fr sid0 s0 c' st' Hc Hpc Hs0 Hst Hconns Hheap EJ EW Ho Hfr Hwf' Hd
    |ws i c sid0 st' Hc Hpc Ho Hconns Hheap EJ EW
    |ws i c c' join_key watch_key st' Hc Hpc Hheap Hconns EW Hcase];
    rewrite ?EJ, ?EW;
    try (split; by eapply registry_ok_mono).
  - split; [|by eapply registry_ok_mono].
    apply registry_ok_delete. by eapply registry_ok_mono.
  - rewrite Hheap. split; [|by apply registry_ok_insert].
    destruct Hcase as [(_ & _ & ->)|(_ & _ & ->)];
      [|apply registry_ok_delete]; by apply registry_ok_insert.
Qed.

Lemma registry_run acts : forall st st',
  Inv st -> registry_ok (JOIN st) (heap st) -> registry_ok (WATCH st) (heap st) ->
  run acts st = Some st' ->
  registry_ok (JOIN st') (heap st') /\ registry_ok (WATCH st') (heap st').
Proof.
  induction acts as [|a acts IH]; intros st st' HI HJ HW Hrun; simpl in Hrun.
  { by injection Hrun as <-. }
  destruct (step a st) as [st1|] eqn:Hstep; [|done]. simpl in Hrun.
  pose proof (step_Effect st st1 a (Inv_wf _ HI) Hstep) as HE.
  destruct (registry_Effect st a st1 HE HJ HW) as [HJ1 HW1].
  apply (IH st1); [by eapply Inv_step|done..].
Qed.

Lemma reachable_registry st :
  reachable st -> registry_ok (JOIN st) (heap st) /\ registry_ok (WATCH st) (heap st).
Proof.
  intros (rnd & acts & Hrun).
  eapply registry_run; [apply Inv_boot| | |done]; split; intros *; simpl;
    by rewrite lookup_empty.
Qed.

(** X7: in every reachable state each token of [JOIN] and of [WATCH] refers
    to a game that exists, and no game has two join tokens or two watch
    tokens registered; so a join or a watch with a registered token always
    finds its game. *)
Theorem registry_sound st :
  reachable st ->
  (forall k sid, JOIN st !! k = Some sid \/ WATCH st !! k = Some sid ->
     is_Some (heap st !! sid)) /\
  (forall k1 k2 sid, JOIN st !! k1 = Some sid -> JOIN st !! k2 = Some sid -> k1 = k2) /\
  (forall k1 k2 sid, WATCH st !! k1 = Some sid -> WATCH st !! k2 = Some sid -> k1 = k2).
Proof.
  intros Hreach. destruct (reachable_registry st Hreach) as [[HJ1 HJ2] [HW1 HW2]].
  split; [|done]. intros k sid [Hk|Hk]; apply lookup_lt_is_Some; eauto.
Qed.

Lemma watch_step st a st' k :
  Effect st a st' -> is_Some (WATCH st !! k) -> is_Some (WATCH st' !! k).
Proof.
  intros HE Hk.
  destruct HE as
    [ws st' Hnone Hconns Hheap EJ EW
    |ws c st' Hc Hconns Hheap EJ EW
    |ws i c c' st' Hc Hconns Hheap EJ EW Ho Hfr Hne Hwf' Hd
    |ws i c raised st' Hc Hfr Hconns Hheap EJ EW
    |ws i c raised join_key sid0 st' Hc Hfr Hconns Hheap EJ EW
    |ws i c raised fr sid0 st' Hc Hfr Hst Hconns Hheap EJ EW
    |ws i c fr sid0 s0 column row g' st' Hc Hpc Hs0 Hgp Hconns Hheap EJ EW
    |ws i c fr sid0 s0 c' st' Hc Hpc Hs0 Hst Hconns Hheap EJ EW Ho Hfr Hwf' Hd
    |ws i c sid0 st' Hc Hpc Ho Hconns Hheap EJ EW
    |ws i c c' join_key watch_key st' Hc Hpc Hheap Hconns EW Hcase];
    rewrite EW; try done.
  rewrite lookup_insert_is_Some. destruct (decide (watch_key = k)); auto.
Qed.

Lemma watch_run acts : forall st st' k,
  Inv st -> run acts st = Some st' ->
  is_Some (WATCH st !! k) -> is_Some (WATCH st' !! k).
Proof.
  induction acts as [|a acts IH]; intros st st' k HI Hrun Hk; simpl in Hrun.
  { by injection Hrun as <-. }
  destruct (step a st) as [st1|] eqn:Hstep; [|done]. simpl in Hrun.
  apply (IH st1); [by eapply Inv_step|done|].
  eapply watch_step; [|done]. apply step_Effect; [by apply Inv_wf|done].
Qed.

(** X8: no transition deletes from [WATCH]: a watch token that is
    registered in a reachable state is registered in every later state,
    whatever handlers end in between. *)
Theorem watch_tokens_persist st acts st' k :
  reachable st -> run acts st = Some st' ->
  is_Some (WATCH st !! k) -> is_Some (WATCH st' !! k).
Proof. intros Hreach. apply watch_run. by apply reachable_Inv. Qed.

End Whole.

(** ** What is written to the connections *)

Lemma wins_follow_plays_nil : wins_follow_plays [].
Proof. intros i p Hi. by rewrite lookup_nil in Hi. Qed.

Lemma wins_follow_plays_snoc sent e :
  (forall p, e <> WinEvent p) -> wins_follow_plays sent -> wins_follow_plays (sent ++ [e]).
Proof.
  intros He HV i p Hi. apply lookup_app_Some in Hi as [Hi|[Hge Hi]].
  - destruct (HV i p Hi) as (j & column & row & -> & Hj).
    exists j, column, row. split; [done|]. by apply lookup_app_l_Some.
  - destruct (i - length sent) as [|n]; simpl in Hi; [|done].
    injection Hi as ->. by destruct (He p).
Qed.

Lemma wins_follow_plays_move sent p column row :
  wins_follow_plays sent ->
  wins_follow_plays (sent ++ [PlayEvent p column row; WinEvent p]).
Proof.
  intros HV i q Hi. apply lookup_app_Some in Hi as [Hi|[Hge Hi]].
  - destruct (HV i q Hi) as (j & column' & row' & -> & Hj).
    exists j, column', row'. split; [done|]. by apply lookup_app_l_Some.
  - destruct (i - length sent) as [|[|n]] eqn:Hn; simpl in Hi; [done| |done].
    injection Hi as <-. exists (length sent), column, row. split; [lia|].
    by rewrite lookup_app_r, Nat.sub_diag.
Qed.

Lemma grows_refl own c : grows own c c.
Proof. exists []. rewrite app_nil_r. by destruct (c_open c). Qed.

Lemma grows_trans own c1 c2 c3 : grows own c1 c2 -> grows own c2 c3 -> grows own c1 c3.
Proof.
  intros (evs1 & Hs1 & Hc1 & Ho1 & HV1) (evs2 & Hs2 & Hc2 & Ho2 & HV2).
  exists (evs1 ++ evs2). split; [by rewrite Hs2, Hs1, app_assoc|]. split; [|split].
  - intros Hclosed. destruct (Hc1 Hclosed) as [-> Hclosed2].
    by destruct (Hc2 Hclosed2) as [-> ?].
  - intros Hown. destruct (Ho1 Hown) as (Hp1 & Hop1 & Hb1).
    destruct (Ho2 Hown) as (Hp2 & Hop2 & Hb2).
    split; [congruence|]. split; [congruence|].
    by rewrite forallb_app, Hb1, Hb2.
  - auto.
Qed.

Lemma grows_own own c c' : grows own c c' -> grows true c c'.
Proof.
  intros (evs & Hs & Hc & _ & HV). exists evs. by split_and!.
Qed.

Section Writes.
Context `{Engine : RulesEngine}.

Implicit Types (st : state) (c : Connection) (s : Session) (ws sid : nat).

Lemma writes_refl w st : writes w st st.
Proof. split; [|done]. intros ws c Hc. exists c. split; [done|apply grows_refl]. Qed.

Lemma writes_conns w st0 st st1 :
  conns st1 = conns st -> writes w st0 st -> writes w st0 st1.
Proof. unfold writes. by intros ->. Qed.

(** The coroutine changes its own record, not what was sent. *)
Lemma writes_alter w st0 st (f : Connection -> Connection) :
  (forall c, c_sent (f c) = c_sent c /\ (c_open c = false -> c_open (f c) = false)) ->
  writes w st0 st -> writes w st0 (with_conns (alter f w) st).
Proof.
  intros Hf [Hw Hnone]. split.
  - intros ws c Hc. destruct (Hw ws c Hc) as (c' & Hc' & Hg). simpl.
    rewrite lookup_alter. destruct (decide (w = ws)) as [->|Hne].
    + rewrite Hc'. simpl. eexists. split; [done|].
      rewrite bool_decide_true in * by done.
      eapply grows_trans; [exact Hg|]. exists []. rewrite app_nil_r.
      destruct (Hf c') as [Hs Ho]. rewrite Hs. split; [done|].
      split; [intros Hcl; split; [done|by apply Ho]|]. by split.
    + by exists c'.
  - intros ws Hws. simpl. rewrite lookup_alter. specialize (Hnone ws Hws).
    case_decide; [subst; by rewrite Hnone|done].
Qed.

Lemma writes_set_pc w st0 st p : writes w st0 st -> writes w st0 (set_pc w p st).
Proof. apply writes_alter. done. Qed.

Lemma writes_finish w st0 st raised : writes w st0 st -> writes w st0 (finish w raised st).
Proof. apply writes_alter. done. Qed.

Lemma writes_send w st0 st st1 e :
  (forall p, e <> WinEvent p) ->
  send w e st = Some st1 -> writes w st0 st -> writes w st0 st1.
Proof.
  intros He Hsend [Hw Hnone]. unfold send, is_open in Hsend.
  destruct (conns st !! w) as [cw|] eqn:Hcw; [|done].
  destruct (c_open cw) eqn:Hopen; [|done]. injection Hsend as <-. split.
  - intros ws c Hc. destruct (Hw ws c Hc) as (c' & Hc' & Hg). simpl.
    rewrite lookup_alter. destruct (decide (w = ws)) as [->|Hne].
    + rewrite Hc'. simpl. eexists. split; [done|].
      rewrite bool_decide_true in * by done.
      rewrite Hcw in Hc'. injection Hc' as <-.
      eapply grows_trans; [exact Hg|]. exists [e]. split; [done|].
      split; [congruence|]. split; [done|]. by apply wins_follow_plays_snoc.
    + by exists c'.
  - intros ws Hws. simpl. rewrite lookup_alter. specialize (Hnone ws Hws).
    case_decide; [subst; by rewrite Hnone|done].
Qed.

(** The broadcasts of an accepted move. *)
Lemma writes_move w st0 st (S : gset nat) p column row (g' : game) :
  writes w st0 st ->
  writes w st0
    match winner g' with
    | Some _ => broadcast S (WinEvent p) (broadcast S (PlayEvent p column row) st)
    | None => broadcast S (PlayEvent p column row) st
    end.
Proof.
  intros [Hw Hnone]. split.
  - intros ws c Hc. destruct (Hw ws c Hc) as (c' & Hc' & Hg).
    assert (Hstep : forall evs, forallb broadcastable evs = true ->
              (wins_follow_plays (c_sent c') -> wins_follow_plays (c_sent c' ++ evs)) ->
              grows (bool_decide (ws = w)) c
                (if c_open c' && bool_decide (ws ∈ S)
                 then {| c_pc := c_pc c'; c_open := c_open c'; c_sent := c_sent c' ++ evs |}
                 else c')).
    { intros evs Hb HV. eapply grows_trans; [exact Hg|].
      destruct (c_open c') eqn:Ho; simpl; [|apply grows_refl].
      destruct (bool_decide (ws ∈ S)); simpl; [|apply grows_refl].
      exists evs. simpl. split; [done|]. split; [congruence|]. by split. }
    destruct (winner g'); rewrite !conns_broadcast, Hc'; simpl; eexists; (split; [done|]).
    + specialize (Hstep [PlayEvent p column row; WinEvent p] eq_refl
                    (wins_follow_plays_move _ p column row)).
      destruct (c_open c') eqn:Ho; destruct (bool_decide (ws ∈ S)) eqn:Hin;
        simpl in *; rewrite ?Ho; simpl; rewrite ?Hin; simpl; try exact Hstep.
      unfold deliver. simpl. rewrite Ho, <- app_assoc. exact Hstep.
    + assert (HV : wins_follow_plays (c_sent c') ->
                   wins_follow_plays (c_sent c' ++ [PlayEvent p column row])).
      { by apply wins_follow_plays_snoc. }
      apply (Hstep [PlayEvent p column row] eq_refl HV).
  - intros ws Hws. specialize (Hnone ws Hws).
    destruct (winner g'); rewrite !conns_broadcast, Hnone; done.
Qed.

Lemma writes_leave w st0 st fr sid raised :
  writes w st0 st -> writes w st0 (leave fr sid w raised st).
Proof.
  intros Hw. unfold leave. apply writes_finish.
  eapply writes_conns; [|exact Hw]. by destruct fr.
Qed.

Lemma writes_replay w st0 st fr sid rest :
  writes w st0 st -> writes w st0 (replay fr sid w rest st).
Proof.
  intros Hw. destruct rest as [|[[p column] row] rest]; simpl.
  - unfold after_replay. destruct fr; try by apply writes_set_pc.
    destruct (is_open st w); [by apply writes_set_pc|by apply writes_leave].
  - destruct (send w (PlayEvent p column row) st) as [st1|] eqn:Hsend;
      [|by apply writes_leave].
    apply writes_set_pc. eapply writes_send; [|exact Hsend|exact Hw]. done.
Qed.

Lemma writes_not_found w st : writes w st (not_found w st).
Proof.
  unfold not_found, error.
  destruct (send w (ErrorEvent "Game not found.") st) as [st1|] eqn:Hsend.
  - apply writes_set_pc. eapply writes_send; [|done|apply writes_refl]. done.
  - apply writes_finish, writes_refl.
Qed.

Lemma writes_attach w st st' fr sid :
  attach fr sid w st = Some st' -> writes w st st'.
Proof.
  unfold attach. destruct (heap st !! sid) as [s|]; [|done]. simpl.
  intros [= <-]. apply writes_replay.
  eapply writes_conns; [|apply writes_refl]. done.
Qed.

Lemma writes_start w st : writes w st (start w st).
Proof.
  unfold start. simpl.
  match goal with |- context [send w ?e ?st0] => set (stR := st0); set (ev := e) end.
  assert (HR : writes w st stR) by (eapply writes_conns; [|apply writes_refl]; done).
  destruct (send w ev stR) as [st1|] eqn:Hsend.
  - apply writes_set_pc. eapply writes_send; [|exact Hsend|exact HR]. done.
  - by apply writes_leave.
Qed.

Lemma writes_play w st st' fr sid m :
  play fr sid w m st = Some st' -> writes w st st'.
Proof.
  unfold play. intros Hplay.
  assert (Hout : writes w st (leave fr sid w true st)) by apply writes_leave, writes_refl.
  destruct m as [|type j wt [column|]]; [by injection Hplay as <-| |by injection Hplay as <-].
  case_decide; [|by injection Hplay as <-].
  destruct (heap st !! sid) as [s|]; [|done]. simpl in Hplay.
  destruct (game_play (s_game s) (seat fr) column) as [o g'].
  injection Hplay as <-.
  assert (HG : writes w st (set_game sid g' st)).
  { eapply writes_conns; [|apply writes_refl]. done. }
  destruct o as [row|exc|].
  - by apply writes_move.
  - unfold error.
    destruct (send w (ErrorEvent exc) (set_game sid g' st)) as [st1|] eqn:Hsend.
    + apply writes_set_pc. eapply writes_send; [|exact Hsend|exact HG]. done.
    + by apply writes_leave.
  - by apply writes_leave.
Qed.

Lemma writes_resume w i st st' : resume w i st = Some st' -> writes w st st'.
Proof.
  unfold resume. destruct (conns st !! w) as [c|]; [|done]. simpl.
  pose proof (writes_refl w st) as Hr.
  destruct (c_pc c) as [| |sid join_key|fr sid rest|fr sid|fr sid|sid|raised];
    destruct i as [m| |ok|]; try done;
    repeat match goal with
           | |- (if ?b then _ else _) = _ -> _ => destruct b; [done|]
           end;
    try (intros [= <-];
         first [by apply writes_finish | by apply writes_leave
               | by apply writes_set_pc | by apply writes_replay]).
  - unfold handler. destruct m as [|type j wt column];
      [intros [= <-]; by apply writes_finish|].
    case_decide; [|intros [= <-]; by apply writes_finish].
    destruct j as [join_key|]; [|destruct wt as [watch_key|]].
    + unfold join. destruct (JOIN st !! join_key).
      * apply writes_attach.
      * intros [= <-]. apply writes_not_found.
    + unfold watch. destruct (WATCH st !! watch_key).
      * apply writes_attach.
      * intros [= <-]. apply writes_not_found.
    + intros [= <-]. apply writes_start.
  - apply writes_play.
Qed.

Lemma step_grows a st st' ws c :
  step a st = Some st' -> conns st !! ws = Some c ->
  exists c', conns st' !! ws = Some c' /\
    grows (bool_decide (ws = actor a)) c c'.
Proof.
  intros Hstep Hc. destruct a as [w|w|w i]; simpl in *.
  - destruct (conns st !! w) eqn:Hw; [done|]. injection Hstep as <-. simpl.
    exists c. rewrite lookup_insert_ne by congruence. split; [done|apply grows_refl].
  - destruct (conns st !! w) as [cw|] eqn:Hw; [|done]. injection Hstep as <-. simpl.
    destruct (decide (w = ws)) as [->|Hne].
    + rewrite lookup_insert_eq. eexists. split; [done|].
      rewrite bool_decide_true by done. rewrite Hc in Hw. injection Hw as <-.
      exists []. simpl. rewrite app_nil_r. by split_and!.
    + rewrite lookup_insert_ne by done. exists c. split; [done|apply grows_refl].
  - destruct (writes_resume w i st st' Hstep) as [Hw _]. by apply Hw.
Qed.

Lemma run_grows acts : forall st st' ws c,
  run acts st = Some st' -> conns st !! ws = Some c ->
  exists c', conns st' !! ws = Some c' /\ grows true c c'.
Proof.
  induction acts as [|a acts IH]; intros st st' ws c Hrun Hc; simpl in Hrun.
  { injection Hrun as <-. exists c. split; [done|apply grows_refl]. }
  destruct (step a st) as [st1|] eqn:Hstep; [|done]. simpl in Hrun.
  destruct (step_grows a st st1 ws c Hstep Hc) as (c1 & Hc1 & Hg1).
  destruct (IH st1 st' ws c1 Hrun Hc1) as (c' & Hc' & Hg').
  exists c'. split; [done|]. eapply grows_trans; [by eapply grows_own|done].
Qed.

(** X3: what was written to a connection is never taken back or reordered:
    along every run, the events a connection was sent are a prefix of what
    it is sent later; once its transport is closed nothing more is written
    to it, and it does not reopen. *)
Theorem sent_append_only st acts st' ws c :
  run acts st = Some st' -> conns st !! ws = Some c ->
  exists c', conns st' !! ws = Some c' /\
    c_sent c `prefix_of` c_sent c' /\
    (c_open c = false -> c_sent c' = c_sent c /\ c_open c' = false).
Proof.
  intros Hrun Hc.
  destruct (run_grows acts st st' ws c Hrun Hc) as (c' & Hc' & evs & Hs & Hcl & _).
  exists c'. split; [done|]. split; [rewrite Hs; by apply prefix_app_r|].
  intros Ho. destruct (Hcl Ho) as [-> Ho']. by rewrite Hs, app_nil_r.
Qed.

(** X4: a transition of one connection writes only play and win events to
    the other connections, and leaves their suspension points and
    transports as they are: init and error events are sent to the
    connection whose handler produces them and to no other. *)
Theorem others_get_broadcasts_only st a st' ws c :
  step a st = Some st' -> conns st !! ws = Some c -> actor a <> ws ->
  exists c' evs,
    conns st' !! ws = Some c' /\
    c_pc c' = c_pc c /\ c_open c' = c_open c /\
    c_sent c' = c_sent c ++ evs /\ forallb broadcastable evs = true.
Proof.
  intros Hstep Hc Hne.
  destruct (step_grows a st st' ws c Hstep Hc) as (c' & Hc' & evs & Hs & _ & Ho & _).
  rewrite bool_decide_false in Ho by congruence.
  destruct (Ho eq_refl) as (Hpc & Hopen & Hb). by exists c', evs.
Qed.

Lemma wins_run acts : forall st st',
  (forall ws c, conns st !! ws = Some c -> wins_follow_plays (c_sent c)) ->
  run acts st = Some st' ->
  forall ws c, conns st' !! ws = Some c -> wins_follow_plays (c_sent c).
Proof.
  induction acts as [|a acts IH]; intros st st' HV Hrun; simpl in Hrun.
  { by injection Hrun as <-. }
  destruct (step a st) as [st1|] eqn:Hstep; [|done]. simpl in Hrun.
  apply (IH st1); [|done]. intros ws c1 Hc1.
  destruct (conns st !! ws) as [c|] eqn:Hc.
  - destruct (step_grows a st st1 ws c Hstep Hc) as (c1' & Hc1' & evs & _ & _ & _ & HV').
    rewrite Hc1 in Hc1'. injection Hc1' as <-. apply HV'. by eapply HV.
  - destruct a as [w|w|w i]; simpl in Hstep.
    + destruct (conns st !! w) eqn:Hw; [done|]. injection Hstep as <-. simpl in Hc1.
      destruct (decide (w = ws)) as [->|Hne].
      * rewrite lookup_insert_eq in Hc1. injection Hc1 as <-. apply wins_follow_plays_nil.
      * rewrite lookup_insert_ne in Hc1 by done. congruence.
    + destruct (conns st !! w) as [cw|] eqn:Hw; [|done]. injection Hstep as <-.
      simpl in Hc1. destruct (decide (w = ws)) as [->|Hne]; [congruence|].
      rewrite lookup_insert_ne in Hc1 by done. congruence.
    + destruct (writes_resume w i st st1 Hstep) as [_ Hnone].
      rewrite (Hnone ws Hc) in Hc1. done.
Qed.

(** X11: in every reachable state, each win event a connection was sent
    comes directly after the play event of a move of the same player on
    that connection. *)
Theorem win_follows_play st ws c :
  reachable st -> conns st !! ws = Some c -> wins_follow_plays (c_sent c).
Proof.
  intros (rnd & acts & Hrun). eapply wins_run; [|done].
  intros w cw Hcw. simpl in Hcw. by rewrite lookup_empty in Hcw.
Qed.

End Writes.

(** ** Tokens when the random bytes do not repeat *)

Section Tokens.
Context `{Engine : RulesEngine}.

Implicit Types (st : state) (c : Connection) (s : Session) (ws sid : nat).

Lemma kept_refl st : kept st st.
Proof. done. Qed.

Lemma kept_conns st0 st f : kept st0 st -> kept st0 (with_conns f st).
Proof. done. Qed.

Lemma kept_JOIN st0 st f : kept st0 st -> kept st0 (with_JOIN f st).
Proof. done. Qed.

Lemma kept_alter st0 st (f : Session -> Session) sid :
  kept st0 st -> kept st0 (with_heap (alter f sid) st).
Proof. intros (Hu & Hd & Hl). split_and!; simpl; by rewrite ?length_alter. Qed.

Lemma kept_send st0 st st1 w e : send w e st = Some st1 -> kept st0 st -> kept st0 st1.
Proof. unfold send. destruct (is_open st w); [|done]. by intros [= <-]. Qed.

Lemma kept_leave st0 st fr sid w raised :
  kept st0 st -> kept st0 (leave fr sid w raised st).
Proof.
  intros Hk. unfold leave, finish. apply kept_conns.
  destruct fr; simpl; [by apply kept_JOIN|by apply kept_alter..].
Qed.

Lemma kept_replay st0 st fr sid w rest :
  kept st0 st -> kept st0 (replay fr sid w rest st).
Proof.
  intros Hk. destruct rest as [|[[p column] row] rest]; simpl.
  - unfold after_replay. destruct fr; try by apply kept_conns.
    destruct (is_open st w); [by apply kept_conns|by apply kept_leave].
  - destruct (send w (PlayEvent p column row) st) as [st1|] eqn:Hsend;
      [|by apply kept_leave].
    apply kept_conns. by eapply kept_send.
Qed.

Lemma kept_not_found st w : kept st (not_found w st).
Proof.
  unfold not_found, error.
  destruct (send w (ErrorEvent "Game not found.") st) as [st1|] eqn:Hsend.
  - apply kept_conns. by eapply kept_send.
  - by apply kept_conns.
Qed.

Lemma kept_attach st st' fr sid w : attach fr sid w st = Some st' -> kept st st'.
Proof.
  unfold attach. destruct (heap st !! sid) as [s|]; [|done]. simpl.
  intros [= <-]. apply kept_replay. by apply kept_alter.
Qed.

Lemma kept_play st st' fr sid w m : play fr sid w m st = Some st' -> kept st st'.
Proof.
  unfold play. intros Hplay.
  assert (Hout : kept st (leave fr sid w true st)) by by apply kept_leave.
  destruct m as [|type j wt [column|]]; [by injection Hplay as <-| |by injection Hplay as <-].
  case_decide; [|by injection Hplay as <-].
  destruct (heap st !! sid) as [s|]; [|done]. simpl in Hplay.
  destruct (game_play (s_game s) (seat fr) column) as [o g'].
  injection Hplay as <-.
  assert (HG : kept st (set_game sid g' st)) by by apply kept_alter.
  destruct o as [row|exc|].
  - destruct (winner g'); by repeat apply kept_conns.
  - unfold error.
    destruct (send w (ErrorEvent exc) (set_game sid g' st)) as [st1|] eqn:Hsend.
    + apply kept_conns. by eapply kept_send.
    + by apply kept_leave.
  - by apply kept_leave.
Qed.

(** Only [start] draws random bytes and allocates a game. *)
Lemma step_kept a st st' :
  step a st = Some st' ->
  kept st st' \/
  exists w i c, a = Resume w i /\ conns st !! w = Some c /\ c_pc c = AwaitInit /\
                st' = start w st.
Proof.
  destruct a as [w|w|w i]; simpl.
  - destruct (conns st !! w); [done|]. intros [= <-]. by left.
  - destruct (conns st !! w); [|done]. intros [= <-]. by left.
  - unfold resume. destruct (conns st !! w) as [c|] eqn:Hc; [|done]. simpl.
    pose proof (kept_refl st) as Hr.
    destruct (c_pc c) as [| |sid join_key|fr sid rest|fr sid|fr sid|sid|raised] eqn:Hpc;
      destruct i as [m| |ok|]; try done;
      repeat match goal with
             | |- (if ?b then _ else _) = _ -> _ => destruct b; [done|]
             end;
      try (intros [= <-]; left;
           first [by apply kept_conns | by apply kept_leave | by apply kept_replay]).
    + unfold handler. destruct m as [|type j wt column]; [intros [= <-]; by left|].
      case_decide; [|intros [= <-]; by left].
      destruct j as [join_key|]; [|destruct wt as [watch_key|]].
      * unfold join. destruct (JOIN st !! join_key).
        -- intros Hatt. left. by eapply kept_attach.
        -- intros [= <-]. left. apply kept_not_found.
      * unfold watch. destruct (WATCH st !! watch_key).
        -- intros Hatt. left. by eapply kept_attach.
        -- intros [= <-]. left. apply kept_not_found.
      * intros [= <-]. right. by exists w, (Recv (Json type None None column)), c.
    + intros Hplay. left. by eapply kept_play.
Qed.

Lemma start_facts st w c :
  conns st !! w = Some c ->
  let sid := length (heap st) in
  let join_key := Secrets.token_urlsafe (urandom st (drawn st)) in
  let watch_key := Secrets.token_urlsafe (urandom st (S (drawn st))) in
  urandom (start w st) = urandom st /\
  drawn (start w st) = S (S (drawn st)) /\
  heap (start w st) = heap st ++ [{| s_game := Connect4; s_connected := {[w]} |}] /\
  WATCH (start w st) = <[watch_key := sid]> (WATCH st) /\
  ((c_open c = true /\
    JOIN (start w st) = <[join_key := sid]> (JOIN st) /\
    conns (start w st) =
      <[w := {| c_pc := SendInit sid join_key; c_open := true;
                c_sent := c_sent c ++ [InitEvent join_key watch_key] |}]> (conns st)) \/
   (c_open c = false /\
    JOIN (start w st) = delete join_key (<[join_key := sid]> (JOIN st)) /\
    conns (start w st) =
      <[w := {| c_pc := Done true; c_open := false; c_sent := c_sent c |}]> (conns st))).
Proof.
  intros Hc sid join_key watch_key. unfold start. simpl.
  fold join_key watch_key sid.
  match goal with |- context [send w ?e ?st0] => set (stR := st0) end.
  assert (HcR : conns stR !! w = Some c) by done.
  destruct (c_open c) eqn:Ho.
  - destruct (send_open stR w (InitEvent join_key watch_key) c)
      as (st1 & Hsend & Hc1 & Hh1 & HJ1 & HW1 & Hu1 & Hd1); [done..|].
    rewrite Hsend. simpl. rewrite Hu1, Hd1, Hh1, HW1, HJ1.
    split_and!; try done. left. split_and!; try done.
    rewrite (alter_Some _ _ _ (deliver (InitEvent join_key watch_key) c))
      by (rewrite Hc1; apply lookup_insert_eq).
    rewrite Hc1, insert_insert_eq. simpl. by rewrite Ho.
  - assert (Hsend : send w (InitEvent join_key watch_key) stR = None).
    { unfold send, is_open. by rewrite HcR, Ho. }
    rewrite Hsend. simpl. split_and!; try done. right. split_and!; try done.
    by rewrite (alter_Some _ _ _ _ Hc).
Qed.

(** A transition that creates no game registers nothing, and the first
    players keep their frames. *)
Lemma frames_Effect st a st' :
  Effect st a st' -> length (heap st') = length (heap st) ->
  join_tokens_held st -> first_players_distinct st ->
  WATCH st' = WATCH st /\
  (forall k sid, JOIN st' !! k = Some sid -> JOIN st !! k = Some sid) /\
  (forall w c' jk sid,
     conns st' !! w = Some c' -> pc_frame (c_pc c') = Some (Start jk, sid) ->
     (exists c, conns st !! w = Some c /\ pc_frame (c_pc c) = Some (Start jk, sid)) /\
     JOIN st' !! jk = Some sid).
Proof.
  intros HE Hlen HH HF.
  assert (Hupd : forall ws cnew,
            conns st' = <[ws := cnew]> (conns st) -> JOIN st' = JOIN st ->
            (forall jk sid, pc_frame (c_pc cnew) = Some (Start jk, sid) ->
               exists c, conns st !! ws = Some c /\
                         pc_frame (c_pc c) = Some (Start jk, sid)) ->
            forall w c' jk sid,
              conns st' !! w = Some c' -> pc_frame (c_pc c') = Some (Start jk, sid) ->
              (exists c, conns st !! w = Some c /\
                         pc_frame (c_pc c) = Some (Start jk, sid)) /\
              JOIN st' !! jk = Some sid).
  { intros ws cnew EC EJ Hnew w c' jk sid Hc' Hfr. rewrite EC in Hc'. rewrite EJ.
    destruct (decide (w = ws)) as [->|Hne].
    - rewrite lookup_insert_eq in Hc'. injection Hc' as <-.
      destruct (Hnew _ _ Hfr) as (c & Hc & Hf). split; [by exists c|]. by eapply HH.
    - rewrite lookup_insert_ne in Hc' by done. split; [by exists c'|by eapply HH]. }
  destruct HE as
    [ws st' Hnone Hconns Hheap EJ EW
    |ws c st' Hc Hconns Hheap EJ EW
    |ws i c c' st' Hc Hconns Hheap EJ EW Ho Hfr Hne Hwf' Hd
    |ws i c raised st' Hc Hfr Hconns Hheap EJ EW
    |ws i c raised join_key sid0 st' Hc Hfr Hconns Hheap EJ EW
    |ws i c raised fr sid0 st' Hc Hfr Hst Hconns Hheap EJ EW
    |ws i c fr sid0 s0 column row g' st' Hc Hpc Hs0 Hgp Hconns Hheap EJ EW
    |ws i c fr sid0 s0 c' st' Hc Hpc Hs0 Hst Hconns Hheap EJ EW Ho Hfr Hwf' Hd
    |ws i c sid0 st' Hc Hpc Ho Hconns Hheap EJ EW
    |ws i c c' join_key watch_key st' Hc Hpc Hheap Hconns EW Hcase];
    try (split; [done|]); try (split; [by rewrite EJ|]).
  - by apply (Hupd ws _ Hconns EJ).
  - apply (Hupd ws _ Hconns EJ). intros jk sid Hf. by exists c.
  - apply (Hupd ws _ Hconns EJ). intros jk sid Hf. exists c. by rewrite <- Hfr.
  - by apply (Hupd ws _ Hconns EJ).
  - split.
    { intros k sid. rewrite EJ. intros Hk. by apply lookup_delete_Some in Hk as [_ Hk]. }
    intros w c' jk sid Hc' Hf. rewrite Hconns in Hc'.
    destruct (decide (w = ws)) as [->|Hnw].
    { rewrite lookup_insert_eq in Hc'. by injection Hc' as <-. }
    rewrite lookup_insert_ne in Hc' by done. split; [by exists c'|].
    rewrite EJ. apply lookup_delete_Some. split; [|by eapply HH].
    intros <-. apply Hnw.
    pose proof (HH _ _ _ _ Hc Hfr) as H1. pose proof (HH _ _ _ _ Hc' Hf) as H2.
    rewrite H1 in H2. injection H2 as ->.
    by eapply (HF w ws c' c).
  - by apply (Hupd ws _ Hconns EJ).
  - intros w c' jk sid Hc' Hf. rewrite Hconns in Hc'.
    destruct (conns st !! w) as [cw0|] eqn:Hcw0; [|done].
    simpl in Hc'. injection Hc' as <-.
    assert (Hfr0 : pc_frame (c_pc cw0) = Some (Start jk, sid)).
    { by destruct (c_open cw0 && bool_decide (w ∈ s_connected s0)). }
    split; [by exists cw0|]. rewrite EJ. by eapply HH.
  - apply (Hupd ws _ Hconns EJ). intros jk sid Hf. rewrite Hfr in Hf.
    injection Hf as -> _. done.
  - intros w c' jk sid Hc' Hf. destruct Hconns as [Hconns|Hconns];
      (eapply (Hupd ws _ Hconns EJ); [done|exact Hc'|exact Hf]).
  - rewrite Hheap, length_app in Hlen. simpl in Hlen. lia.
Qed.

Lemma Drawn_step st a st' :
  Inv st -> members_attached st -> Drawn st ->
  step a st = Some st' ->
  distinct_draws (urandom st) (drawn st') ->
  Drawn st' /\ urandom st' = urandom st /\ drawn st <= drawn st'.
Proof.
  intros HI HM [HT HH HF] Hstep Hdist.
  pose proof (step_Effect st st' a (Inv_wf st HI) Hstep) as HE.
  destruct (step_kept _ _ _ Hstep)
    as [(Hu & Hd & Hl)|(w & i & c & -> & Hc & Hpc & ->)].
  - destruct (frames_Effect _ _ _ HE Hl HH HF) as (EW & HJ & Hfr).
    split; [|split; [done|lia]]. split.
    + intros k sid Hk. rewrite Hu, Hd. apply (HT k sid).
      destruct Hk as [Hk|Hk]; [left; by apply HJ|right; by rewrite <- EW].
    + intros ws c' jk sid Hc' Hf. by destruct (Hfr _ _ _ _ Hc' Hf).
    + intros ws1 ws2 c1 c2 jk1 jk2 sid Hc1 Hc2 Hf1 Hf2.
      destruct (Hfr _ _ _ _ Hc1 Hf1) as ((d1 & Hd1 & Hg1) & _).
      destruct (Hfr _ _ _ _ Hc2 Hf2) as ((d2 & Hd2 & Hg2) & _).
      by eapply (HF ws1 ws2 d1 d2).
  - destruct (start_facts st w c Hc) as (Hu & Hd & Hh & EW & Hcase).
    simpl in Hu, Hd, Hh, EW, Hcase.
    set (jk := Secrets.token_urlsafe (urandom st (drawn st))) in *.
    set (wk := Secrets.token_urlsafe (urandom st (S (drawn st)))) in *.
    rewrite Hd in Hdist.
    assert (Hold : forall ws cw jk' sid,
              conns st !! ws = Some cw ->
              pc_frame (c_pc cw) = Some (Start jk', sid) ->
              jk' <> jk /\ sid < length (heap st) /\ JOIN st !! jk' = Some sid).
    { intros ws cw jk' sid Hcw Hf. pose proof (HH _ _ _ _ Hcw Hf) as HJ.
      split_and!; [| |done].
      - destruct (HT jk' sid (or_introl HJ)) as (n & Hn & ->).
        intros Heq. apply SecretsFacts.token_urlsafe12_inj in Heq.
        apply (Hdist n (drawn st)); [lia|done].
      - pose proof (HM _ _ _ _ Hcw Hf) as Hin. unfold connected in Hin.
        destruct (heap st !! sid) as [s|] eqn:Hs; [|set_solver].
        by eapply lookup_lt_Some. }
    assert (HJsub : forall k sid, JOIN (start w st) !! k = Some sid ->
              JOIN st !! k = Some sid \/ k = jk).
    { intros k sid Hk. destruct (decide (k = jk)) as [->|Hne]; [by right|left].
      destruct Hcase as [(_ & EJ & _)|(_ & EJ & _)]; rewrite EJ in Hk.
      - by rewrite lookup_insert_ne in Hk.
      - apply lookup_delete_Some in Hk as [_ Hk]. by rewrite lookup_insert_ne in Hk. }
    split; [|split; [done|lia]]. split.
    + intros k sid Hk. rewrite Hu, Hd.
      destruct Hk as [Hk|Hk].
      * destruct (HJsub _ _ Hk) as [Hk0| ->]; [|exists (drawn st); split; [lia|done]].
        destruct (HT k sid (or_introl Hk0)) as (n & Hn & ->). exists n. split; [lia|done].
      * rewrite EW in Hk. destruct (decide (k = wk)) as [->|Hne].
        { exists (S (drawn st)). split; [lia|done]. }
        rewrite lookup_insert_ne in Hk by done.
        destruct (HT k sid (or_intror Hk)) as (n & Hn & ->). exists n. split; [lia|done].
    + intros ws c' jk' sid Hc' Hf.
      destruct Hcase as [(Ho & EJ & EC)|(Ho & EJ & EC)]; rewrite EC in Hc'; rewrite EJ.
      * destruct (decide (ws = w)) as [->|Hnw].
        { rewrite lookup_insert_eq in Hc'. injection Hc' as <-. simpl in Hf.
          injection Hf as <- <-. apply lookup_insert_eq. }
        rewrite lookup_insert_ne in Hc' by done.
        destruct (Hold _ _ _ _ Hc' Hf) as (Hne & _ & HJ).
        by rewrite lookup_insert_ne.
      * destruct (decide (ws = w)) as [->|Hnw].
        { rewrite lookup_insert_eq in Hc'. by injection Hc' as <-. }
        rewrite lookup_insert_ne in Hc' by done.
        destruct (Hold _ _ _ _ Hc' Hf) as (Hne & _ & HJ).
        apply lookup_delete_Some. split; [done|]. by rewrite lookup_insert_ne.
    + assert (Hnew : forall ws c', conns (start w st) !! ws = Some c' ->
                forall jk' sid, pc_frame (c_pc c') = Some (Start jk', sid) ->
                (ws = w /\ sid = length (heap st)) \/
                (ws <> w /\ sid < length (heap st) /\ conns st !! ws = Some c')).
      { intros ws c' Hc' jk' sid Hf.
        destruct Hcase as [(Ho & EJ & EC)|(Ho & EJ & EC)]; rewrite EC in Hc';
          (destruct (decide (ws = w)) as [->|Hnw];
           [rewrite lookup_insert_eq in Hc'; injection Hc' as <-; simpl in Hf
           |rewrite lookup_insert_ne in Hc' by done;
            destruct (Hold _ _ _ _ Hc' Hf) as (_ & Hlt & _); by right]).
        - injection Hf as <- <-. by left.
        - done. }
      intros ws1 ws2 c1 c2 jk1 jk2 sid Hc1 Hc2 Hf1 Hf2.
      destruct (Hnew _ _ Hc1 _ _ Hf1) as [(-> & Hs1)|(Hn1 & Hs1 & Hd1)];
        destruct (Hnew _ _ Hc2 _ _ Hf2) as [(-> & Hs2)|(Hn2 & Hs2 & Hd2)];
        try done; try lia.
      by eapply (HF ws1 ws2 c1 c2).
Qed.

Lemma run_drawn acts : forall st st',
  run acts st = Some st' -> urandom st' = urandom st /\ drawn st <= drawn st'.
Proof.
  induction acts as [|a acts IH]; intros st st' Hrun; simpl in Hrun.
  { by injection Hrun as <-. }
  destruct (step a st) as [st1|] eqn:Hstep; [|done]. simpl in Hrun.
  destruct (IH _ _ Hrun) as (Hu & Hd).
  destruct (step_kept _ _ _ Hstep) as [(Hu1 & Hd1 & _)|(w & i & c & _ & Hc & _ & ->)].
  - rewrite Hu, Hu1. split; [done|lia].
  - destruct (start_facts st w c Hc) as (Hu1 & Hd1 & _). rewrite Hu, Hu1. split; [done|lia].
Qed.

Lemma Drawn_run acts : forall st st',
  Inv st -> members_attached st -> Drawn st ->
  run acts st = Some st' ->
  distinct_draws (urandom st) (drawn st') ->
  Drawn st'.
Proof.
  induction acts as [|a acts IH]; intros st st' HI HM HD Hrun Hdist; simpl in Hrun.
  { by injection Hrun as <-. }
  destruct (step a st) as [st1|] eqn:Hstep; [|done]. simpl in Hrun.
  destruct (run_drawn _ _ _ Hrun) as (Hu & Hd).
  destruct (Drawn_step st a st1 HI HM HD Hstep) as (HD1 & Hu1 & Hd1).
  { intros i j Hij. apply Hdist. lia. }
  apply (IH st1); [by eapply Inv_step| |done|done|by rewrite Hu1].
  eapply members_attached_Effect; [done|].
  apply step_Effect; [by apply Inv_wf|done].
Qed.

Lemma Drawn_boot rnd : Drawn (boot rnd).
Proof.
  split.
  - intros k sid [Hk|Hk]; simpl in Hk; by rewrite lookup_empty in Hk.
  - intros ws c jk sid Hc. simpl in Hc. by rewrite lookup_empty in Hc.
  - intros ws1 ws2 c1 c2 jk1 jk2 sid Hc. simpl in Hc. by rewrite lookup_empty in Hc.
Qed.

Lemma reachable_Drawn st :
  reachable st -> distinct_draws (urandom st) (drawn st) -> Drawn st.
Proof.
  intros (rnd & acts & Hrun) Hdist.
  destruct (run_drawn _ _ _ Hrun) as (Hu & _). simpl in Hu.
  eapply Drawn_run; [apply Inv_boot| |apply Drawn_boot|done|by rewrite <- Hu].
  intros ws c fr sid Hc. simpl in Hc. by rewrite lookup_empty in Hc.
Qed.

(** X9: as long as the random bytes drawn so far do not repeat, the join
    token a first player's coroutine holds is registered in JOIN for its own
    game, so the [del JOIN[join_key]] of its finally-clause finds the key. *)
Theorem join_key_registered st ws c join_key sid :
  reachable st -> distinct_draws (urandom st) (drawn st) ->
  conns st !! ws = Some c ->
  pc_frame (c_pc c) = Some (Start join_key, sid) ->
  JOIN st !! join_key = Some sid /\
  finally_raises (Start join_key) sid ws st = false.
Proof.
  intros Hreach Hdist Hc Hf.
  destruct (reachable_Drawn st Hreach Hdist) as [_ HH _].
  pose proof (HH _ _ _ _ Hc Hf) as HJ. split; [done|].
  unfold finally_raises. by rewrite HJ.
Qed.

(** X10: if the next two draws differ from each other and from the earlier
    ones, the tokens of the next game are in neither dictionary and are
    different, so [start] overwrites no entry. *)
Theorem start_tokens_fresh st :
  reachable st -> distinct_draws (urandom st) (S (S (drawn st))) ->
  let join_key := Secrets.token_urlsafe (urandom st (drawn st)) in
  let watch_key := Secrets.token_urlsafe (urandom st (S (drawn st))) in
  JOIN st !! join_key = None /\ WATCH st !! join_key = None /\
  JOIN st !! watch_key = None /\ WATCH st !! watch_key = None /\
  join_key <> watch_key.
Proof.
  intros Hreach Hdist join_key watch_key.
  assert (HT : tokens_drawn st).
  { destruct Hreach as (rnd & acts & Hrun).
    assert (HD : Drawn st); [|by destruct HD].
    destruct (run_drawn _ _ _ Hrun) as (Hu & _). simpl in Hu.
    eapply Drawn_run; [apply Inv_boot| |apply Drawn_boot|done|].
    - intros ws c fr sid Hc. simpl in Hc. by rewrite lookup_empty in Hc.
    - simpl. rewrite <- Hu. intros i j Hij. apply Hdist. lia. }
  assert (Hnone : forall n, drawn st <= n < S (S (drawn st)) ->
            forall sid, ~ (JOIN st !! Secrets.token_urlsafe (urandom st n) = Some sid \/
                           WATCH st !! Secrets.token_urlsafe (urandom st n) = Some sid)).
  { intros n Hn sid Hk. destruct (HT _ _ Hk) as (m & Hm & Heq).
    apply SecretsFacts.token_urlsafe12_inj in Heq.
    apply (Hdist m n); [lia|done]. }
  split_and!.
  - apply eq_None_not_Some. intros [sid Hk]. apply (Hnone (drawn st) ltac:(lia) sid). by left.
  - apply eq_None_not_Some. intros [sid Hk]. apply (Hnone (drawn st) ltac:(lia) sid). by right.
  - apply eq_None_not_Some. intros [sid Hk]. apply (Hnone (S (drawn st)) ltac:(lia) sid). by left.
  - apply eq_None_not_Some. intros [sid Hk]. apply (Hnone (S (drawn st)) ltac:(lia) sid). by right.
  - intros Heq. apply SecretsFacts.token_urlsafe12_inj in Heq.
    apply (Hdist (drawn st) (S (drawn st))); [lia|done].
Qed.

End Tokens.

(** ** The properties of the whole server, evaluated *)

Section EvaluatedWhole.
Import Scenario.

Lemma runs_reachable acts : runs acts = true -> reachable (after acts).
Proof.
  unfold runs, after. intros Hruns. exists rnd, acts.
  by destruct (run acts (boot rnd)).
Defined.

Lemma runs_run acts1 acts2 :
  runs (acts1 ++ acts2) = true ->
  run acts2 (after acts1) = Some (after (acts1 ++ acts2)).
Proof.
  unfold runs, after. rewrite run_app.
  destruct (run acts1 (boot rnd)) as [st1|]; simpl; [|done].
  by destruct (run acts2 st1).
Defined.

Lemma runs_step acts a :
  runs (acts ++ [a]) = true -> step a (after acts) = Some (after (acts ++ [a])).
Proof.
  intros Hruns. apply runs_run in Hruns. simpl in Hruns.
  by destruct (step a (after acts)).
Defined.

Lemma session_lookup sid (st : @state connect4) :
  (match heap st !! sid with Some _ => true | None => false end) = true ->
  heap st !! sid = Some (session sid st).
Proof. unfold session. by destruct (heap st !! sid). Defined.

(** The entropy source of the scenarios does not repeat in its first 256
    draws. *)
Lemma rnd_distinct n : n <= 256 -> distinct_draws rnd n.
Proof.
  intros Hn i j Hij Heq.
  apply (f_equal (fun v : vec byte 12 => v !!! 0%fin)) in Heq.
  unfold rnd in Heq. simpl in Heq.
  destruct (Byte.of_N (N.of_nat i)) as [bi|] eqn:Hi;
    [|apply Byte.of_N_None_iff in Hi; lia].
  destruct (Byte.of_N (N.of_nat j)) as [bj|] eqn:Hj;
    [|apply Byte.of_N_None_iff in Hj; lia].
  simpl in Heq. subst bj. apply Byte.to_of_N in Hi, Hj. lia.
Defined.

(** A starts a game, B joins, both play: the log that was empty is a prefix
    of the log afterwards. *)
Lemma log_append_only_witness :
  exists s', heap (after two_moves) !! 0 = Some s' /\
    moves (s_game (session 0 (after started))) `prefix_of` moves (s_game s').
Proof.
  apply (log_append_only (after started)
           [Connect 2; Resume 2 (Recv (init_join J1));
            Resume 1 (Recv (play_column 3)); Resume 2 (Recv (play_column 3))]
           (after two_moves) 0 (session 0 (after started))).
  - apply runs_reachable. by vm_compute.
  - apply (runs_run started). by vm_compute.
  - apply session_lookup. by vm_compute.
Defined.

(** The first move of a game: the transition is the first player's
    coroutine at its receive. *)
Lemma only_players_move_witness :
  exists ws i c fr column row g',
    Resume 1 (Recv (play_column 3)) = Resume ws i /\
    conns (after started) !! ws = Some c /\ c_pc c = PlayRecv fr 0 /\
    game_play (s_game (session 0 (after started))) (seat fr) column = (Row row, g') /\
    moves (s_game (session 0 (after (started ++ [Resume 1 (Recv (play_column 3))])))) =
      moves (s_game (session 0 (after started))) ++ [(seat fr, column, row)].
Proof.
  apply (only_players_move (after started) (Resume 1 (Recv (play_column 3)))
           (after (started ++ [Resume 1 (Recv (play_column 3))])) 0
           (session 0 (after started))
           (session 0 (after (started ++ [Resume 1 (Recv (play_column 3))])))).
  - apply runs_reachable. by vm_compute.
  - apply runs_step. by vm_compute.
  - apply session_lookup. by vm_compute.
  - apply session_lookup. by vm_compute.
  - by vm_compute.
Defined.

(** What A was sent when the game started is a prefix of what it was sent
    after two moves. *)
Lemma sent_append_only_witness :
  exists c', conns (after two_moves) !! 1 = Some c' /\
    c_sent (conn 1 (after started)) `prefix_of` c_sent c' /\
    (c_open (conn 1 (after started)) = false ->
     c_sent c' = c_sent (conn 1 (after started)) /\ c_open c' = false).
Proof.
  apply (sent_append_only (after started)
           [Connect 2; Resume 2 (Recv (init_join J1));
            Resume 1 (Recv (play_column 3)); Resume 2 (Recv (play_column 3))]
           (after two_moves) 1 (conn 1 (after started))).
  - apply (runs_run started). by vm_compute.
  - by vm_compute.
Defined.

(** A's move as B sees it. *)
Lemma others_get_broadcasts_only_witness :
  exists c' evs,
    conns (after (joined ++ [Resume 1 (Recv (play_column 3))])) !! 2 = Some c' /\
    c_pc c' = c_pc (conn 2 (after joined)) /\
    c_open c' = c_open (conn 2 (after joined)) /\
    c_sent c' = c_sent (conn 2 (after joined)) ++ evs /\
    forallb broadcastable evs = true.
Proof.
  apply (others_get_broadcasts_only (after joined) (Resume 1 (Recv (play_column 3)))
           (after (joined ++ [Resume 1 (Recv (play_column 3))])) 2
           (conn 2 (after joined))).
  - apply runs_step. by vm_compute.
  - by vm_compute.
  - by vm_compute.
Defined.

(** A's move changes B's connection: A is at its receive and B is an open
    member of A's game. *)
Lemma other_connections_untouched_witness :
  c_open (conn 2 (after joined)) = true /\
  exists cw fr sid,
    conns (after joined) !! 1 = Some cw /\ c_pc cw = PlayRecv fr sid /\
    pc_session (c_pc (conn 2 (after joined))) = Some sid /\
    2 ∈ connected (after joined) sid.
Proof.
  apply (other_connections_untouched (after joined) 1 (Recv (play_column 3))
           (after (joined ++ [Resume 1 (Recv (play_column 3))])) 2
           (conn 2 (after joined))).
  - apply runs_reachable. by vm_compute.
  - apply (runs_step joined (Resume 1 (Recv (play_column 3)))). by vm_compute.
  - by vm_compute.
  - by vm_compute.
  - by vm_compute.
Defined.

(** B, inside [join], is in the connection set of the game and its
    finally-clause finds it there. *)
Lemma attached_is_member_witness :
  2 ∈ connected (after joined) 0 /\
  (is_start Join = false -> finally_raises Join 0 2 (after joined) = false).
Proof.
  apply (attached_is_member (after joined) 2 (conn 2 (after joined)) Join 0).
  - apply runs_reachable. by vm_compute.
  - by vm_compute.
  - by vm_compute.
Defined.

(** The join token of the running game refers to an allocated pair. *)
Lemma registry_sound_witness : is_Some (heap (after two_moves) !! 0).
Proof.
  destruct (registry_sound (after two_moves)) as (Hheap & _ & _).
  - apply runs_reachable. by vm_compute.
  - apply (Hheap J1 0). left. by vm_compute.
Defined.

(** The watch token outlives the first player. *)
Lemma watch_tokens_persist_witness :
  is_Some (WATCH (after first_player_gone) !! W1).
Proof.
  apply (watch_tokens_persist (after started) [Lost 1; Resume 1 (Closed true)]
           (after first_player_gone) W1).
  - apply runs_reachable. by vm_compute.
  - apply (runs_run started). by vm_compute.
  - exists 0. by vm_compute.
Defined.

(** A holds J1 while B plays. *)
Lemma join_key_registered_witness :
  JOIN (after two_moves) !! J1 = Some 0 /\
  finally_raises (Start J1) 0 1 (after two_moves) = false.
Proof.
  apply (join_key_registered (after two_moves) 1 (conn 1 (after two_moves)) J1 0).
  - apply runs_reachable. by vm_compute.
  - apply rnd_distinct. vm_compute. lia.
  - by vm_compute.
  - by vm_compute.
Defined.

(** The tokens of a second game. *)
Lemma start_tokens_fresh_witness :
  JOIN (after two_moves) !! Secrets.token_urlsafe (rnd 2) = None /\
  WATCH (after two_moves) !! Secrets.token_urlsafe (rnd 2) = None /\
  JOIN (after two_moves) !! Secrets.token_urlsafe (rnd 3) = None /\
  WATCH (after two_moves) !! Secrets.token_urlsafe (rnd 3) = None /\
  Secrets.token_urlsafe (rnd 2) <> Secrets.token_urlsafe (rnd 3).
Proof.
  apply (start_tokens_fresh (after two_moves)).
  - apply runs_reachable. by vm_compute.
  - apply rnd_distinct. vm_compute. lia.
Defined.

(** A wins with four discs in column 0: the win event A was sent comes
    directly after the play event of its fourth disc. *)
Lemma win_follows_play_witness :
  c_sent (conn 1 (after four_in_a_column)) !! 8 = Some (WinEvent PLAYER1) /\
  exists j column row,
    8 = S j /\
    c_sent (conn 1 (after four_in_a_column)) !! j = Some (PlayEvent PLAYER1 column row).
Proof.
  split; [by vm_compute|].
  apply (win_follows_play (after four_in_a_column) 1 (conn 1 (after four_in_a_column))).
  - apply runs_reachable. by vm_compute.
  - by vm_compute.
  - by vm_compute.
Defined.

End EvaluatedWhole.
